(** * wait.List: a waitlist for pooling reusable resources

    A model of the Go package [blake.io/wait] (files [list.go] and
    [queue/queue.go]) and the proofs of its specification.

    The package is concurrent: any number of goroutines call [Take],
    [TryTake], [Put] and [Close] on one [List].  All shared accesses of the
    program are synchronised (two mutexes, one atomic flag, channels, a
    [sync.Pool]), so its executions are the interleavings of the goroutines'
    synchronised operations.  The model follows that: every method is cut
    into program points, one per statement that touches shared state, and a
    goroutine performs one such statement per step ([thread_step]).  The
    mutexes are part of the state; mutual exclusion is proved, not assumed.

    Two kinds of statements are proved.  What a call does is stated of the
    call run alone from its first program point ([exec]), in any state that
    meets the stated conditions.  What holds always is stated of every state
    of every interleaving ([run], [reachable]). *)

From Stdlib Require Import ZArith List Lia.
From stdpp Require Import base option list list_numbers gmap.

(** * Package queue *)

Module queue.

Module Fifo.
Record t (E : Type) := mk { a : list E }.
Arguments mk {E} a.
Arguments a {E} _.

Definition empty {E} : t E := mk [].

(** [q.a = append(q.a, v)] *)
Definition Unshift {E} (v : E) (q : t E) : t E := mk (a q ++ [v]).

(** [v = q.a[0]; q.a = append(q.a[:0], q.a[1:]...)], or [ok = false] on
    the empty queue. *)
Definition Shift {E} (q : t E) : option (E * t E) :=
  match a q with
  | [] => None
  | v :: rest => Some (v, mk rest)
  end.

(** [q.a = slices.DeleteFunc(q.a, f)]: every element on which [f] is true
    goes, the others keep their order. *)
Definition DeleteFunc {E} (f : E -> bool) (q : t E) : t E :=
  mk (List.filter (fun x => negb (f x)) (a q)).

Definition Len {E} (q : t E) : nat := length (a q).
End Fifo.

Module Lifo.
Record t (E : Type) := mk { a : list E }.
Arguments mk {E} a.
Arguments a {E} _.

Definition empty {E} : t E := mk [].

(** [q.a = append(q.a, v)] *)
Definition Push {E} (v : E) (q : t E) : t E := mk (a q ++ [v]).

(** [v = q.a[len(q.a)-1]; q.a = q.a[:len(q.a)-1]], or [ok = false] on the
    empty stack. *)
Definition Pop {E} (q : t E) : option (E * t E) :=
  match last (a q) with
  | None => None
  | Some v => Some (v, mk (removelast (a q)))
  end.

Definition DeleteFunc {E} (f : E -> bool) (q : t E) : t E :=
  mk (List.filter (fun x => negb (f x)) (a q)).

Definition Len {E} (q : t E) : nat := length (a q).
End Lifo.

End queue.

Import queue.

(** ** Using the queues

    A caller's sequence of operations on a [Fifo] or a [Lifo], and what it
    gets back. *)

Inductive fifo_op (E : Type) :=
| DoUnshift (v : E)
| DoShift.
Arguments DoUnshift {E} v.
Arguments DoShift {E}.

(** The operations in turn: the results of the [Shift] calls ([None] for
    [ok = false]) and the queue at the end. *)
Fixpoint fifo_run {E} (ops : list (fifo_op E)) (q : Fifo.t E) : list (option E) * Fifo.t E :=
  match ops with
  | [] => ([], q)
  | DoUnshift v :: ops' => fifo_run ops' (Fifo.Unshift v q)
  | DoShift :: ops' =>
      match Fifo.Shift q with
      | Some (v, q') => let (rs, q'') := fifo_run ops' q' in (Some v :: rs, q'')
      | None => let (rs, q'') := fifo_run ops' q in (None :: rs, q'')
      end
  end.

(** The values given to [Unshift], in order. *)
Fixpoint unshifted {E} (ops : list (fifo_op E)) : list E :=
  match ops with
  | [] => []
  | DoUnshift v :: ops' => v :: unshifted ops'
  | DoShift :: ops' => unshifted ops'
  end.

(** [Push] of each value in turn. *)
Definition push_all {E} (vs : list E) (q : Lifo.t E) : Lifo.t E :=
  foldl (fun q v => Lifo.Push v q) q vs.

(** Up to [n] calls of [Pop]: the values popped, in order, and the stack
    left. *)
Fixpoint pop_n {E} (n : nat) (q : Lifo.t E) : list E * Lifo.t E :=
  match n with
  | O => ([], q)
  | S n' =>
      match Lifo.Pop q with
      | Some (v, q') => let (vs, q'') := pop_n n' q' in (v :: vs, q'')
      | None => ([], q)
      end
  end.

(** * Package wait *)

(** Go's [int], taken at 64 bits: [loads++] wraps around. *)
Definition int_min : Z := - 2 ^ 63.
Definition int_max : Z := 2 ^ 63 - 1.
Definition int_wrap (z : Z) : Z := ((z - int_min) mod 2 ^ 64 + int_min)%Z.

(** Goroutines, channels and contexts are named by numbers. *)
Definition tid := nat.
Definition chan := nat.
Definition ctx_id := nat.

(** [ErrMaxWaiters], [ErrClosed], and the other errors a context may be
    cancelled with.  The caller chooses the cause, and may choose one of the
    two errors of the package. *)
Inductive error :=
| ErrMaxWaiters
| ErrClosed
| Cause (n : nat).

(** The [load] argument of [Take]: [nil] or a function of the caller. *)
Inductive loader := NilLoad | UserLoad.

(** The run-time panics the package can raise. *)
Inductive panic :=
| WaiterChannelFull      (* panic("waiter: waiter channel full (this is a bug in waitlist)") *)
| SendOnClosedChannel    (* runtime: send on closed channel *)
| CloseOfClosedChannel.  (* runtime: close of closed channel *)

(** What the scheduler and the environment decide in a step: which pooled
    channel [sync.Pool.Get] hands out (none: the pool is treated as empty),
    that a [select] takes its [ctx.Done()] case, what a caller's [load]
    returns. *)
Inductive choice {Item : Type} :=
| Auto
| Pooled (i : nat)
| CtxDone
| Loaded (v : Item).
Arguments choice Item : clear implicits.

Section wait.

Context {Item : Type}.
(** The zero value of the item type. *)
Variable zero : Item.

(** A [chan Item] made by [make(chan T, 1)]: at most one buffered value. *)
Record Chan := mkChan { buf : list Item; chclosed : bool }.

Definition chan_cap : nat := 1.
Definition make_chan : Chan := mkChan [] false.

Inductive send_result :=
| Sent (cs : list Chan)
| NotReady
| SendPanics.

(** [select { case ch <- v: ... default: ... }].  A number that names no
    channel behaves as the nil channel does: never ready. *)
Definition chan_send (ch : chan) (v : Item) (cs : list Chan) : send_result :=
  match cs !! ch with
  | None => NotReady
  | Some c =>
      if chclosed c then SendPanics
      else if (length (buf c) <? chan_cap)%nat
           then Sent (<[ch := mkChan (buf c ++ [v]) false]> cs)
           else NotReady
  end.

(** A receive that is ready: the oldest buffered value, or, on a closed and
    drained channel, no value ([ok = false], the zero value).  [None] when
    the receive would block. *)
Definition chan_recv (ch : chan) (cs : list Chan) : option (option Item * list Chan) :=
  match cs !! ch with
  | None => None
  | Some c =>
      match buf c with
      | v :: rest => Some (Some v, <[ch := mkChan rest (chclosed c)]> cs)
      | [] => if chclosed c then Some (None, cs) else None
      end
  end.

(** [close(ch)]; [None] when it panics. *)
Definition chan_close (ch : chan) (cs : list Chan) : option (list Chan) :=
  match cs !! ch with
  | None => None
  | Some c => if chclosed c then None else Some (<[ch := mkChan (buf c) true]> cs)
  end.

(** A cell that is open and holds no value. *)
Definition idle (cs : list Chan) (ch : chan) : Prop := cs !! ch = Some make_chan.

(** The struct [List[Item]].  A mutex is free or held by a goroutine; the
    [sync.Pool] is the list of the channels put back and not handed out
    again; [testHookWaiterCanceled] is nil outside the package's tests and
    is left out. *)
Record List := mkList {
  MaxItems : Z;
  MaxWaiters : Z;
  readyMu : option tid;
  ready : Lifo.t Item;
  loads : Z;
  waitersMu : option tid;
  waiters : Fifo.t chan;
  chanPool : list chan;
  closed : bool
}.

(** The zero [List] with the two limits set. *)
Definition new_List (max_items max_waiters : Z) : List :=
  mkList max_items max_waiters None Lifo.empty 0 None Fifo.empty [] false.

Definition set_readyMu (m : option tid) (p : List) : List :=
  mkList (MaxItems p) (MaxWaiters p) m (ready p) (loads p) (waitersMu p)
         (waiters p) (chanPool p) (closed p).
Definition set_ready (r : Lifo.t Item) (p : List) : List :=
  mkList (MaxItems p) (MaxWaiters p) (readyMu p) r (loads p) (waitersMu p)
         (waiters p) (chanPool p) (closed p).
Definition set_loads (n : Z) (p : List) : List :=
  mkList (MaxItems p) (MaxWaiters p) (readyMu p) (ready p) n (waitersMu p)
         (waiters p) (chanPool p) (closed p).
Definition set_waitersMu (m : option tid) (p : List) : List :=
  mkList (MaxItems p) (MaxWaiters p) (readyMu p) (ready p) (loads p) m
         (waiters p) (chanPool p) (closed p).
Definition set_waiters (q : Fifo.t chan) (p : List) : List :=
  mkList (MaxItems p) (MaxWaiters p) (readyMu p) (ready p) (loads p) (waitersMu p)
         q (chanPool p) (closed p).
Definition set_chanPool (l : list chan) (p : List) : List :=
  mkList (MaxItems p) (MaxWaiters p) (readyMu p) (ready p) (loads p) (waitersMu p)
         (waiters p) l (closed p).
Definition set_closed (b : bool) (p : List) : List :=
  mkList (MaxItems p) (MaxWaiters p) (readyMu p) (ready p) (loads p) (waitersMu p)
         (waiters p) (chanPool p) b.

(** Everything the goroutines share: the list, the channels made so far,
    the contexts cancelled so far with their causes, and the number of
    calls of a [load] function so far. *)
Record world := mkWorld {
  pool : List;
  chans : list Chan;
  ctxs : gmap ctx_id error;
  calls : nat
}.

Definition new_world (max_items max_waiters : Z) : world :=
  mkWorld (new_List max_items max_waiters) [] ∅ 0.

Definition with_pool (p : List) (w : world) : world :=
  mkWorld p (chans w) (ctxs w) (calls w).
Definition set_chans (cs : list Chan) (w : world) : world :=
  mkWorld (pool w) cs (ctxs w) (calls w).
Definition set_ctxs (m : gmap ctx_id error) (w : world) : world :=
  mkWorld (pool w) (chans w) m (calls w).
Definition count_call (w : world) : world :=
  mkWorld (pool w) (chans w) (ctxs w) (S (calls w)).

(** What a finished call returned. *)
Inductive result :=
| RetTake (v : Item) (err : option error)
| RetTryTake (v : Item) (ok : bool)
| RetPut (accepted : bool)
| RetClose.

(** [maybeHandoff] is called twice in [Put]: before [readyMu] is taken
    (line 200) and under it (line 213). *)
Inductive phase := Fast | Slow.

(** The program points.  A goroutine at a point is about to run the
    statement of [list.go] named there; the arguments are its live local
    variables. *)
Inductive pc :=
(* Take *)
| TakeLockReady (ctx : ctx_id) (load : loader)              (* 102 *)
| TakePop (ctx : ctx_id) (load : loader)                    (* 106 *)
| TakeRetReady (v : Item)                                   (* 107-108 *)
| TakeChkClosed (ctx : ctx_id) (load : loader)              (* 112 *)
| TakeRetClosed                                             (* 113-114 *)
| TakeChkCtx (ctx : ctx_id) (load : loader)                 (* 117 *)
| TakeRetCtx (cause : error)                                (* 118-119 *)
| TakeLockWaiters (ctx : ctx_id) (load : loader)            (* 122 *)
| TakeChkMax (ctx : ctx_id) (load : loader)                 (* 125 *)
| TakeMaxUnlockW                                            (* 126 *)
| TakeMaxUnlockR                                            (* 127-128 *)
| TakeGetChan (ctx : ctx_id) (load : loader)                (* 132-135 *)
| TakeUnshift (ctx : ctx_id) (load : loader) (ch : chan)    (* 136 *)
| TakeStartLoad (ctx : ctx_id) (load : loader) (ch : chan)  (* 138-144 *)
| TakeUnlockW (ctx : ctx_id) (ch : chan)                    (* 146 *)
| TakeUnlockR (ctx : ctx_id) (ch : chan)                    (* 147 *)
| TakeSelect (ctx : ctx_id) (ch : chan)                     (* 150-151, 157-158 *)
| TakeRecvd (ch : chan) (r : option Item)                   (* 152-156 *)
(* handleCancel, and the end of Take's cancellation case *)
| CancelLock (ch : chan) (cause : error)                    (* 233 *)
| CancelDelete (ch : chan) (cause : error)                  (* 234-236 *)
| CancelUnlock (ch : chan) (cause : error)                  (* 237 *)
| CancelRecheck (ch : chan) (cause : error)                 (* 239-246 *)
| CancelPut (ch : chan) (v : Item) (err : option error)     (* 160-161 *)
(* TryTake *)
| TryLock                                                   (* 169 *)
| TryPop                                                    (* 171 *)
| TryUnlock (v : Item) (ok : bool)                          (* 170, deferred *)
(* Put *)
| PutChkClosed (v : Item)                                   (* 180 *)
| HandoffLock (ph : phase) (v : Item)                       (* 185 *)
| HandoffShift (ph : phase) (v : Item)                      (* 186 *)
| HandoffUnlock (ph : phase) (v : Item) (r : option chan)   (* 187 *)
| HandoffSend (ph : phase) (v : Item) (ch : chan)           (* 189-193 *)
| PutLockReady (v : Item)                                   (* 204 *)
| PutRechkClosed (v : Item)                                 (* 206 *)
| PutRetClosed                                              (* 207-208 *)
| PutHandedUnlock                                           (* 214-215 *)
| PutPush (v : Item)                                        (* 218 *)
| PutUnlock                                                 (* 219-220 *)
(* go func() { p.Put(load()) }() *)
| GoLoad (load : loader)                                    (* 143 *)
(* Close *)
| CloseSwap                                                 (* 70 *)
| CloseLock                                                 (* 75 *)
| CloseShift                                                (* 80 *)
| CloseChan (ch : chan)                                     (* 84 *)
| CloseUnlock                                               (* 76, deferred *)
(* the call has returned *)
| Done (r : result).

(** One step of a goroutine: it cannot move now, it panics, or it moves on,
    changes the shared state and possibly starts a goroutine. *)
Inductive outcome :=
| Blocked
| Crash (e : panic)
| Next (k : pc) (w : world) (spawned : option pc).

Definition goto (k : pc) (w : world) : outcome := Next k w None.

Definition lockR (me : tid) (k : pc) (w : world) : outcome :=
  match readyMu (pool w) with
  | None => goto k (with_pool (set_readyMu (Some me) (pool w)) w)
  | Some _ => Blocked
  end.
Definition lockW (me : tid) (k : pc) (w : world) : outcome :=
  match waitersMu (pool w) with
  | None => goto k (with_pool (set_waitersMu (Some me) (pool w)) w)
  | Some _ => Blocked
  end.
Definition unlockR (w : world) : world := with_pool (set_readyMu None (pool w)) w.
Definition unlockW (w : world) : world := with_pool (set_waitersMu None (pool w)) w.

(** [p.chanPool.Get().(chan T)]: a pooled channel, taken out of the pool, or
    nothing. *)
Definition pool_get (c : choice Item) (free : list chan) : option (chan * list chan) :=
  match c with
  | Pooled i =>
      match free !! i with
      | Some ch => Some (ch, delete i free)
      | None => None
      end
  | _ => None
  end.

(** [p.chanPool.Put(ch)] *)
Definition pool_put (ch : chan) (w : world) : world :=
  with_pool (set_chanPool (ch :: chanPool (pool w)) (pool w)) w.

Definition thread_step (me : tid) (c : choice Item) (k : pc) (w : world) : outcome :=
  let p := pool w in
  match k with
  (* func (p *List[T]) Take(ctx context.Context, load func() T) (T, error) *)
  | TakeLockReady ctx load => lockR me (TakePop ctx load) w
  | TakePop ctx load =>
      match Lifo.Pop (ready p) with
      | Some (v, r) => goto (TakeRetReady v) (with_pool (set_ready r p) w)
      | None => goto (TakeChkClosed ctx load) w
      end
  | TakeRetReady v => goto (Done (RetTake v None)) (unlockR w)
  | TakeChkClosed ctx load =>
      if closed p then goto TakeRetClosed w else goto (TakeChkCtx ctx load) w
  | TakeRetClosed => goto (Done (RetTake zero (Some ErrClosed))) (unlockR w)
  | TakeChkCtx ctx load =>
      (* a cancelled context keeps its cause: context.Cause(ctx) of line 119
         is read here *)
      match ctxs w !! ctx with
      | Some cause => goto (TakeRetCtx cause) w
      | None => goto (TakeLockWaiters ctx load) w
      end
  | TakeRetCtx cause => goto (Done (RetTake zero (Some cause))) (unlockR w)
  | TakeLockWaiters ctx load => lockW me (TakeChkMax ctx load) w
  | TakeChkMax ctx load =>
      if (0 <? MaxWaiters p)%Z && (MaxWaiters p <=? Z.of_nat (Fifo.Len (waiters p)))%Z
      then goto TakeMaxUnlockW w
      else goto (TakeGetChan ctx load) w
  | TakeMaxUnlockW => goto TakeMaxUnlockR (unlockW w)
  | TakeMaxUnlockR => goto (Done (RetTake zero (Some ErrMaxWaiters))) (unlockR w)
  | TakeGetChan ctx load =>
      match pool_get c (chanPool p) with
      | Some (ch, rest) =>
          goto (TakeUnshift ctx load ch) (with_pool (set_chanPool rest p) w)
      | None =>
          goto (TakeUnshift ctx load (length (chans w)))
               (set_chans (chans w ++ [make_chan]) w)
      end
  | TakeUnshift ctx load ch =>
      goto (TakeStartLoad ctx load ch)
           (with_pool (set_waiters (Fifo.Unshift ch (waiters p)) p) w)
  | TakeStartLoad ctx load ch =>
      match ctxs w !! ctx with
      | None =>
          if (MaxItems p =? 0)%Z || (loads p <? MaxItems p)%Z
          then Next (TakeUnlockW ctx ch)
                    (with_pool (set_loads (int_wrap (loads p + 1)) p) w)
                    (Some (GoLoad load))
          else goto (TakeUnlockW ctx ch) w
      | Some _ => goto (TakeUnlockW ctx ch) w
      end
  | TakeUnlockW ctx ch => goto (TakeUnlockR ctx ch) (unlockW w)
  | TakeUnlockR ctx ch => goto (TakeSelect ctx ch) (unlockR w)
  | TakeSelect ctx ch =>
      let done :=
        match ctxs w !! ctx with
        | Some cause => goto (CancelLock ch cause) w
        | None => Blocked
        end in
      match c with
      | CtxDone => done
      | _ =>
          match chan_recv ch (chans w) with
          | Some (r, cs) => goto (TakeRecvd ch r) (set_chans cs w)
          | None => done
          end
      end
  | TakeRecvd ch r =>
      goto (Done (match r with
                  | Some v => RetTake v None
                  | None => RetTake zero (Some ErrClosed)
                  end))
           (pool_put ch w)
  (* func (p *List[T]) handleCancel(ch chan T, errUnlessMissed error) (T, error) *)
  | CancelLock ch cause => lockW me (CancelDelete ch cause) w
  | CancelDelete ch cause =>
      goto (CancelUnlock ch cause)
           (with_pool (set_waiters (Fifo.DeleteFunc (fun wch => Nat.eqb ch wch) (waiters p)) p) w)
  | CancelUnlock ch cause => goto (CancelRecheck ch cause) (unlockW w)
  | CancelRecheck ch cause =>
      match chan_recv ch (chans w) with
      | Some (r, cs) => goto (CancelPut ch (default zero r) None) (set_chans cs w)
      | None => goto (CancelPut ch zero (Some cause)) w
      end
  | CancelPut ch v err => goto (Done (RetTake v err)) (pool_put ch w)
  (* func (p *List[T]) TryTake() (_ T, ok bool) *)
  | TryLock => lockR me TryPop w
  | TryPop =>
      match Lifo.Pop (ready p) with
      | Some (v, r) => goto (TryUnlock v true) (with_pool (set_ready r p) w)
      | None => goto (TryUnlock zero false) w
      end
  | TryUnlock v ok => goto (Done (RetTryTake v ok)) (unlockR w)
  (* func (p *List[T]) Put(v T) (accepted bool) *)
  | PutChkClosed v =>
      if closed p then goto (Done (RetPut false)) w else goto (HandoffLock Fast v) w
  | HandoffLock ph v => lockW me (HandoffShift ph v) w
  | HandoffShift ph v =>
      match Fifo.Shift (waiters p) with
      | Some (ch, q) => goto (HandoffUnlock ph v (Some ch)) (with_pool (set_waiters q p) w)
      | None => goto (HandoffUnlock ph v None) w
      end
  | HandoffUnlock ph v r =>
      match r with
      | Some ch => goto (HandoffSend ph v ch) (unlockW w)
      | None => goto (match ph with Fast => PutLockReady v | Slow => PutPush v end) (unlockW w)
      end
  | HandoffSend ph v ch =>
      match chan_send ch v (chans w) with
      | Sent cs =>
          goto (match ph with Fast => Done (RetPut true) | Slow => PutHandedUnlock end)
               (set_chans cs w)
      | NotReady => Crash WaiterChannelFull
      | SendPanics => Crash SendOnClosedChannel
      end
  | PutLockReady v => lockR me (PutRechkClosed v) w
  | PutRechkClosed v =>
      if closed p then goto PutRetClosed w else goto (HandoffLock Slow v) w
  | PutRetClosed => goto (Done (RetPut false)) (unlockR w)
  | PutHandedUnlock => goto (Done (RetPut true)) (unlockR w)
  | PutPush v => goto PutUnlock (with_pool (set_ready (Lifo.Push v (ready p)) p) w)
  | PutUnlock => goto (Done (RetPut true)) (unlockR w)
  (* go func() { p.Put(load()) }(): a nil load was replaced by the function
     that returns the zero value (lines 140-142); a load of the caller
     returns what the environment says, when it says so *)
  | GoLoad load =>
      match load, c with
      | NilLoad, _ => goto (PutChkClosed zero) (count_call w)
      | UserLoad, Loaded v => goto (PutChkClosed v) (count_call w)
      | UserLoad, _ => Blocked
      end
  (* func (p *List[T]) Close() *)
  | CloseSwap =>
      if closed p then goto (Done RetClose) w
      else goto CloseLock (with_pool (set_closed true p) w)
  | CloseLock => lockW me CloseShift w
  | CloseShift =>
      match Fifo.Shift (waiters p) with
      | Some (ch, q) => goto (CloseChan ch) (with_pool (set_waiters q p) w)
      | None => goto CloseUnlock w
      end
  | CloseChan ch =>
      match chan_close ch (chans w) with
      | Some cs => goto CloseShift (set_chans cs w)
      | None => Crash CloseOfClosedChannel
      end
  | CloseUnlock => goto (Done RetClose) (unlockW w)
  | Done _ => Blocked
  end.

(** ** One goroutine running alone

    [exec me c n k w] lets the goroutine [me] take up to [n] steps from
    [k], nobody else moving and every choice being [c]; it stops early where
    the goroutine has returned or cannot move. *)
Inductive trace_end :=
| Ended (k : pc) (w : world) (spawned : list pc)
| Panicked (e : panic).

Fixpoint exec (me : tid) (c : choice Item) (n : nat) (k : pc) (w : world) : trace_end :=
  match n with
  | O => Ended k w []
  | S n' =>
      match thread_step me c k w with
      | Blocked => Ended k w []
      | Crash e => Panicked e
      | Next k' w' sp =>
          match exec me c n' k' w' with
          | Ended k'' w'' sps => Ended k'' w'' (option_list sp ++ sps)
          | Panicked e => Panicked e
          end
      end
  end.

(** ** All goroutines together *)

Inductive call :=
| CallTake (ctx : ctx_id) (load : loader)
| CallTryTake
| CallPut (v : Item)
| CallClose.

Definition entry (c : call) : pc :=
  match c with
  | CallTake ctx load => TakeLockReady ctx load
  | CallTryTake => TryLock
  | CallPut v => PutChkClosed v
  | CallClose => CloseSwap
  end.

(** A goroutine of the caller starts a call, a context is cancelled with a
    cause of the caller's choice (the first cause stays), or the goroutine
    [t] takes a step. *)
Inductive event :=
| Go (c : call)
| CancelCtx (ctx : ctx_id) (cause : error)
| Step (t : tid) (c : choice Item).

Record machine := mkMachine {
  shared : world;
  threads : list pc;
  crashed : option panic
}.

Definition boot (max_items max_waiters : Z) : machine :=
  mkMachine (new_world max_items max_waiters) [] None.

Definition cancel (ctx : ctx_id) (cause : error) (w : world) : world :=
  match ctxs w !! ctx with
  | Some _ => w
  | None => set_ctxs (<[ctx := cause]> (ctxs w)) w
  end.

(** [None]: the event cannot happen in this state (the goroutine does not
    exist, is blocked or has returned, or the program has panicked). *)
Definition fire (e : event) (m : machine) : option machine :=
  match crashed m with
  | Some _ => None
  | None =>
      match e with
      | Go c => Some (mkMachine (shared m) (threads m ++ [entry c]) None)
      | CancelCtx ctx n => Some (mkMachine (cancel ctx n (shared m)) (threads m) None)
      | Step t c =>
          match threads m !! t with
          | None => None
          | Some k =>
              match thread_step t c k (shared m) with
              | Blocked => None
              | Crash e => Some (mkMachine (shared m) (threads m) (Some e))
              | Next k' w' sp =>
                  Some (mkMachine w' (<[t := k']> (threads m) ++ option_list sp) None)
              end
          end
      end
  end.

Fixpoint run (es : list event) (m : machine) : option machine :=
  match es with
  | [] => Some m
  | e :: es' =>
      match fire e m with
      | Some m' => run es' m'
      | None => None
      end
  end.

(** The states of a list created with the given limits. *)
Definition reachable (max_items max_waiters : Z) (m : machine) : Prop :=
  exists es, run es (boot max_items max_waiters) = Some m.

(** ** Sequences of registrations and handoffs *)

(** A registration is a [Take] run alone up to its [select] (eleven steps,
    the cell coming from the free-list or from [make] as [c] says); a handoff
    is a [Put] run alone that returns true after the five steps of its fast
    path, that is, after writing into a waiter's cell. *)
Inductive op :=
| Register (ctx : ctx_id) (load : loader) (c : choice Item)
| Handoff (v : Item).

(** The cell a registration put on the queue, and the state after the
    operation; [None] when the operation was not a registration, or not a
    handoff. *)
Definition do_op (me : tid) (o : op) (w : world) : option (option chan * world) :=
  match o with
  | Register ctx load c =>
      match exec me c 11 (TakeLockReady ctx load) w with
      | Ended (TakeSelect _ ch) w' _ => Some (Some ch, w')
      | _ => None
      end
  | Handoff v =>
      match exec me Auto 5 (PutChkClosed v) w with
      | Ended (Done (RetPut true)) w' _ => Some (None, w')
      | _ => None
      end
  end.

(** The operations one after the other: the cells registered, in order, and
    the final state. *)
Fixpoint serve (me : tid) (ops : list op) (w : world) : option (list chan * world) :=
  match ops with
  | [] => Some ([], w)
  | o :: ops' =>
      match do_op me o w with
      | None => None
      | Some (r, w1) =>
          match serve me ops' w1 with
          | None => None
          | Some (rs, w2) => Some (option_list r ++ rs, w2)
          end
      end
  end.

(** The values handed off, in order. *)
Fixpoint handed (ops : list op) : list Item :=
  match ops with
  | [] => []
  | Register _ _ _ :: ops' => handed ops'
  | Handoff v :: ops' => v :: handed ops'
  end.

Fixpoint registrations (ops : list op) : nat :=
  match ops with
  | [] => 0
  | Register _ _ _ :: ops' => S (registrations ops')
  | Handoff _ :: ops' => registrations ops'
  end.

(** With [k] waiters queued at the start, every handoff of [ops] finds a
    waiter. *)
Fixpoint balanced (k : nat) (ops : list op) : bool :=
  match ops with
  | [] => true
  | Register _ _ _ :: ops' => balanced (S k) ops'
  | Handoff _ :: ops' =>
      match k with
      | O => false
      | S k' => balanced k' ops'
      end
  end.

Definition op_ctx_live (w : world) (o : op) : Prop :=
  match o with
  | Register ctx _ _ => ctxs w !! ctx = None
  | Handoff _ => True
  end.

(** A quiet state: no mutex held, the list open, no ready item, and the
    cells on the Waiter Queue and in the free-list distinct, open and
    empty. *)
Definition quiet (w : world) : Prop :=
  readyMu (pool w) = None
  /\ waitersMu (pool w) = None
  /\ closed (pool w) = false
  /\ Lifo.a (ready (pool w)) = []
  /\ NoDup (Fifo.a (waiters (pool w)) ++ chanPool (pool w))
  /\ Forall (idle (chans w)) (Fifo.a (waiters (pool w)) ++ chanPool (pool w)).

(** ** Vocabulary of the statements *)

(** The program points of [TryTake] and of [Put]. *)
Definition in_TryTake (k : pc) : bool :=
  match k with
  | TryLock | TryPop | TryUnlock _ _ => true
  | _ => false
  end.

Definition in_Put (k : pc) : bool :=
  match k with
  | PutChkClosed _ | HandoffLock _ _ | HandoffShift _ _ | HandoffUnlock _ _ _
  | HandoffSend _ _ _ | PutLockReady _ | PutRechkClosed _ | PutRetClosed
  | PutHandedUnlock | PutPush _ | PutUnlock => true
  | _ => false
  end.

(** The program points at which a goroutine holds [waitersMu]. *)
Definition holdsW (k : pc) : bool :=
  match k with
  | TakeChkMax _ _ | TakeMaxUnlockW | TakeGetChan _ _ | TakeUnshift _ _ _
  | TakeStartLoad _ _ _ | TakeUnlockW _ _
  | CancelDelete _ _ | CancelUnlock _ _
  | HandoffShift _ _ | HandoffUnlock _ _ _
  | CloseShift | CloseChan _ | CloseUnlock => true
  | _ => false
  end.

(** The program points at which a goroutine holds [readyMu]. *)
Definition holdsR (k : pc) : bool :=
  match k with
  | TakePop _ _ | TakeRetReady _ | TakeChkClosed _ _ | TakeRetClosed
  | TakeChkCtx _ _ | TakeRetCtx _ | TakeLockWaiters _ _ | TakeChkMax _ _
  | TakeMaxUnlockW | TakeMaxUnlockR | TakeGetChan _ _ | TakeUnshift _ _ _
  | TakeStartLoad _ _ _ | TakeUnlockW _ _ | TakeUnlockR _ _
  | TryPop | TryUnlock _ _
  | PutRechkClosed _ | PutRetClosed | HandoffLock Slow _ | HandoffShift Slow _
  | HandoffUnlock Slow _ _ | HandoffSend Slow _ _ | PutHandedUnlock
  | PutPush _ | PutUnlock => true
  | _ => false
  end.

(** The program points between the [MaxWaiters] check of [Take] and its
    [Unshift]. *)
Definition may_grow (k : pc) : bool :=
  match k with
  | TakeGetChan _ _ | TakeUnshift _ _ _ => true
  | _ => false
  end.

(** A goroutine that was started by [Take] and has not called [load] yet. *)
Definition pending (k : pc) : nat :=
  match k with
  | GoLoad _ => 1
  | _ => 0
  end.

(** What holds of the Waiter Queue in every state: it respects
    [MaxWaiters]; a goroutine inside a [waitersMu] section is the holder of
    the mutex; a [Take] that passed the [MaxWaiters] check still has room. *)
Definition waiters_inv (m : machine) : Prop :=
  let p := pool (shared m) in
  ((0 < MaxWaiters p)%Z -> (Z.of_nat (Fifo.Len (waiters p)) <= MaxWaiters p)%Z)
  /\ (forall t k, threads m !! t = Some k -> holdsW k = true -> waitersMu p = Some t)
  /\ (forall t k, threads m !! t = Some k -> may_grow k = true ->
        (0 < MaxWaiters p)%Z -> (Z.of_nat (Fifo.Len (waiters p)) < MaxWaiters p)%Z).

(** What holds of [loads] in every state of a list with [MaxItems > 0]: it
    is the number of [load] calls made plus the number of those still to be
    made by the goroutines that [Take] started, and it respects
    [MaxItems]. *)
Definition loads_inv (m : machine) : Prop :=
  let p := pool (shared m) in
  (0 <= loads p <= MaxItems p)%Z
  /\ Z.of_nat (calls (shared m) + sum_list_with pending (threads m)) = loads p.

(** Mutual exclusion: in every state, a goroutine inside a [readyMu] section
    is the holder of [readyMu], and likewise for [waitersMu]; so no two
    goroutines are inside sections of the same mutex. *)
Definition mutex_inv (m : machine) : Prop :=
  (forall t k, threads m !! t = Some k -> holdsR k = true ->
     readyMu (pool (shared m)) = Some t)
  /\ (forall t k, threads m !! t = Some k -> holdsW k = true ->
     waitersMu (pool (shared m)) = Some t).

(** ** Steady operation

    Executions in which no context is cancelled and [Close] is not called. *)

Definition steady_event (e : event) : bool :=
  match e with
  | Go CallClose | CancelCtx _ _ => false
  | _ => true
  end.

(** The program points outside [Close] and outside the cancellation case of
    [Take]. *)
Definition calm (k : pc) : bool :=
  match k with
  | CancelLock _ _ | CancelDelete _ _ | CancelUnlock _ _ | CancelRecheck _ _
  | CancelPut _ _ _
  | CloseSwap | CloseLock | CloseShift | CloseChan _ | CloseUnlock => false
  | _ => true
  end.

(** The cell a goroutine has in hand: taken from the free-list or made and
    not yet queued, taken off the queue and not yet written, or read and not
    yet put back on the free-list. *)
Definition held (k : pc) : list chan :=
  match k with
  | TakeUnshift _ _ ch | HandoffUnlock _ _ (Some ch) | HandoffSend _ _ ch
  | TakeRecvd ch _ => [ch]
  | _ => []
  end.

(** The cells on the Waiter Queue, on the free-list and in hand. *)
Definition cells (m : machine) : list chan :=
  Fifo.a (waiters (pool (shared m))) ++ chanPool (pool (shared m))
  ++ concat (held <$> threads m).

(** What holds in steady operation: those cells are distinct, open and
    empty, and no cell holds more than one value. *)
Definition steady (m : machine) : Prop :=
  crashed m = None
  /\ ctxs (shared m) = ∅
  /\ closed (pool (shared m)) = false
  /\ Forall (fun k => calm k = true) (threads m)
  /\ NoDup (cells m)
  /\ Forall (idle (chans (shared m))) (cells m)
  /\ Forall (fun c => length (buf c) <= chan_cap /\ chclosed c = false) (chans (shared m)).

(** ** A caller that makes one call after the other *)

(** Enough steps for any call that returns without waiting. *)
Definition call_fuel (w : world) : nat := 12 + 2 * Fifo.Len (waiters (pool w)).

(** The call run alone to its end: what it returns and the state it leaves.
    [None] when the call does not return by itself (a [Take] that has to
    wait) or panics. *)
Definition seq_call (me : tid) (c : call) (w : world) : option (result * world) :=
  match exec me Auto (call_fuel w) (entry c) w with
  | Ended (Done r) w' [] => Some (r, w')
  | _ => None
  end.

Fixpoint seq_calls (me : tid) (cs : list call) (w : world) : option (list result * world) :=
  match cs with
  | [] => Some ([], w)
  | c :: cs' =>
      match seq_call me c w with
      | None => None
      | Some (r, w1) =>
          match seq_calls me cs' w1 with
          | None => None
          | Some (rs, w2) => Some (r :: rs, w2)
          end
      end
  end.

(** The list after a [Take] has queued the cell [ch]: [loads] is one more
    exactly when the construction budget allows ([MaxItems] is 0, or
    [loads < MaxItems]). *)
Definition registered (ch : chan) (p : List) : List :=
  set_waiters (Fifo.Unshift ch (waiters p))
    (if (MaxItems p =? 0)%Z || (loads p <? MaxItems p)%Z
     then set_loads (int_wrap (loads p + 1)) p
     else p).

(** The goroutine that such a [Take] starts, if any. *)
Definition started (load : loader) (p : List) : list pc :=
  if (MaxItems p =? 0)%Z || (loads p <? MaxItems p)%Z then [GoLoad load] else [].

(** What [load] returns: the zero value for a nil [load]. *)
Definition loaded (load : loader) (v : Item) : Item :=
  match load with
  | NilLoad => zero
  | UserLoad => v
  end.

(** ** The mutexes *)

(** The program points at which a goroutine is about to lock a mutex. *)
Definition locks_mutex (k : pc) : bool :=
  match k with
  | TakeLockReady _ _ | TryLock | PutLockReady _
  | TakeLockWaiters _ _ | HandoffLock _ _ | CancelLock _ _ | CloseLock => true
  | _ => false
  end.

(** A held mutex has a holder: a goroutine inside one of its sections. *)
Definition owner_inv (m : machine) : Prop :=
  (forall t, readyMu (pool (shared m)) = Some t ->
     exists k, threads m !! t = Some k /\ holdsR k = true)
  /\ (forall t, waitersMu (pool (shared m)) = Some t ->
     exists k, threads m !! t = Some k /\ holdsW k = true).

(** ** What a verdict says about the list *)

(** The cause a goroutine carries is the cause of a cancelled context. *)
Definition cancelled_with (w : world) (cause : error) : Prop :=
  exists ctx, ctxs w !! ctx = Some cause.

(** What stands behind an error returned by [Take]: [ErrClosed] and the
    closed list, [ErrMaxWaiters] and a positive limit, or a context that
    was cancelled with that very error. *)
Definition justified (w : world) (e : error) : Prop :=
  (e = ErrClosed /\ closed (pool w) = true)
  \/ (e = ErrMaxWaiters /\ (0 < MaxWaiters (pool w))%Z)
  \/ cancelled_with w e.

(** What a goroutine has seen of the list to be where it is. *)
Definition verdict_ok (w : world) (k : pc) : Prop :=
  match k with
  | TakeRetClosed | PutRetClosed | CloseLock | CloseShift | CloseChan _ | CloseUnlock
  | TakeRecvd _ None | Done (RetPut false) => closed (pool w) = true
  | TakeMaxUnlockW | TakeMaxUnlockR => (0 < MaxWaiters (pool w))%Z
  | TakeRetCtx cause | CancelLock _ cause | CancelDelete _ cause | CancelUnlock _ cause
  | CancelRecheck _ cause | CancelPut _ _ (Some cause) => cancelled_with w cause
  | Done (RetTake _ (Some e)) => justified w e
  | _ => True
  end.

(** Only [Close] closes a cell, and every goroutine is where it is for a
    reason. *)
Definition verdict_inv (m : machine) : Prop :=
  (forall ch c, chans (shared m) !! ch = Some c -> chclosed c = true ->
     closed (pool (shared m)) = true)
  /\ Forall (verdict_ok (shared m)) (threads m).

(** ** Where the items are *)

(** The item a goroutine has in hand: the argument of a [Put] until it is
    handed over or stacked, the item a [Take] or [TryTake] has obtained, and,
    once the call has returned, the item it returned. *)
Definition carried (k : pc) : list Item :=
  match k with
  | TakeRetReady v | TakeRecvd _ (Some v) | CancelPut _ v None
  | TryUnlock v true
  | PutChkClosed v | HandoffLock _ v | HandoffShift _ v | HandoffUnlock _ v _
  | HandoffSend _ v _ | PutLockReady v | PutRechkClosed v | PutPush v
  | Done (RetTake v None) | Done (RetTryTake v true) => [v]
  | _ => []
  end.

(** The items of a state: on the Ready Stack, in the buffers of all the
    cells made so far (queued or not, owned by a waiter or not), in hand. *)
Definition stock (m : machine) : list Item :=
  Lifo.a (ready (pool (shared m)))
  ++ concat (buf <$> chans (shared m))
  ++ concat (carried <$> threads m).

(** The item an event brings in: the argument of a [Put] of the caller, or
    what the [load] function called at this step returns. *)
Definition brought (e : event) (m : machine) : list Item :=
  match e with
  | Go (CallPut v) => [v]
  | Step t c =>
      match threads m !! t, c with
      | Some (GoLoad NilLoad), _ => [zero]
      | Some (GoLoad UserLoad), Loaded v => [v]
      | _, _ => []
      end
  | _ => []
  end.

(** The items brought in along a run, latest first. *)
Fixpoint supply (es : list event) (m : machine) : list Item :=
  match es with
  | [] => []
  | e :: es' =>
      match fire e m with
      | Some m' => supply es' m' ++ brought e m
      | None => []
      end
  end.

End wait.

(** * Runs and states of a [List[int]] *)

(** [n] steps of the goroutine [t], no choice to make. *)
Definition steps_of (t : tid) (n : nat) : list (@event Z) := replicate n (Step t Auto).

(** A waiter whose context is cancelled while [Close] runs.  [MaxItems] is
    1.  A first [Take] gets the one item that may be constructed, 42, and
    keeps it.  A second [Take], with context 1, queues up; nothing is
    constructed for it.  Its context is cancelled and its [select] takes the
    cancellation case.  Before it reaches [handleCancel]'s lock, [Close]
    runs from start to end and closes the queued cell.  The waiter then
    finishes [handleCancel]. *)
Definition cancel_close_race : list (@event Z) :=
  [Go (CallTake 0 UserLoad)] ++ steps_of 0 11          (* goroutine 0 waits on cell 0 *)
  ++ [Step 1 (Loaded 42%Z)] ++ steps_of 1 5            (* goroutine 1: Put(load()) *)
  ++ steps_of 0 2                                      (* Take returns 42 *)
  ++ [Go (CallTake 1 UserLoad)] ++ steps_of 2 11       (* goroutine 2 waits on cell 1 *)
  ++ [CancelCtx 1 (Cause 7); Step 2 CtxDone]                   (* case <-ctx.Done() *)
  ++ [Go CallClose] ++ steps_of 3 6                    (* Close, whole *)
  ++ steps_of 2 5.                                     (* handleCancel, return *)

(** A value written into a cell whose waiter has left.  [MaxItems] is 1.
    Goroutine 0 calls [Take] and waits on cell 0; goroutine 1, started by
    it, constructs 7 and, in [Put], takes cell 0 off the Waiter Queue.
    Before it writes, the context of goroutine 0 is cancelled: goroutine 0
    finds its cell empty, returns the cause and puts cell 0 on the
    free-list.  Goroutine 1 now writes 7 into cell 0.  Goroutine 2 calls
    [Take], gets cell 0 from the free-list and queues it.  Before it reaches
    its [select], goroutine 3 calls [Put(8)], takes cell 0 off the queue and
    finds it full. *)
Definition stale_cell_race : list (@event Z) :=
  [Go (CallTake 0 UserLoad)] ++ steps_of 0 11          (* goroutine 0 waits on cell 0 *)
  ++ [Step 1 (Loaded 7%Z)] ++ steps_of 1 4             (* goroutine 1 holds cell 0 *)
  ++ [CancelCtx 0 (Cause 0); Step 0 CtxDone] ++ steps_of 0 5   (* goroutine 0 gives up *)
  ++ steps_of 1 1                                      (* 7 goes into cell 0 *)
  ++ [Go (CallTake 1 UserLoad)] ++ steps_of 2 6
  ++ [Step 2 (Pooled 0)] ++ steps_of 2 4               (* goroutine 2 queues cell 0 *)
  ++ [Go (CallPut 8%Z)] ++ steps_of 3 5.               (* Put(8) *)

(** The state in which [stale_cell_race] finds its last [Put]: the list is
    open, no mutex is held, and cell 0, the head of the Waiter Queue, holds
    the 7 that the first [Put] wrote after its waiter had left. *)
Definition stale_head_cell : list (@event Z) :=
  [Go (CallTake 0 UserLoad)] ++ steps_of 0 11          (* goroutine 0 waits on cell 0 *)
  ++ [Step 1 (Loaded 7%Z)] ++ steps_of 1 4             (* goroutine 1 holds cell 0 *)
  ++ [CancelCtx 0 (Cause 0); Step 0 CtxDone] ++ steps_of 0 5   (* goroutine 0 gives up *)
  ++ steps_of 1 1                                      (* 7 goes into cell 0 *)
  ++ [Go (CallTake 1 UserLoad)] ++ steps_of 2 6
  ++ [Step 2 (Pooled 0)] ++ steps_of 2 4.              (* goroutine 2 queues cell 0 *)

(** A handoff that serves nobody.  As in [stale_cell_race], cell 0 receives
    7 after its waiter has left and is queued again by goroutine 2, which
    now reaches its [select], finds the 7, returns it and recycles cell 0:
    cell 0 is on the Waiter Queue and on the free-list, and nobody waits on
    it.  Goroutine 3 calls [Take], makes cell 1, queues it behind cell 0
    and blocks.  Goroutine 4 calls [Put(8)]. *)
Definition dead_cell_race : list (@event Z) :=
  stale_head_cell
  ++ steps_of 2 2                                      (* goroutine 2 returns 7 *)
  ++ [Go (CallTake 2 UserLoad)] ++ steps_of 3 11       (* goroutine 3 waits on cell 1 *)
  ++ [Go (CallPut 8%Z)] ++ steps_of 4 5.               (* Put(8) *)

(** A cell queued twice.  As in [dead_cell_race] up to the return of
    goroutine 2; goroutine 3 calls [Take], gets cell 0 from the free-list,
    queues it behind itself and blocks.  Goroutine 4 calls [Close]. *)
Definition double_queued_close : list (@event Z) :=
  stale_head_cell
  ++ steps_of 2 2                                      (* goroutine 2 returns 7 *)
  ++ [Go (CallTake 2 UserLoad)] ++ steps_of 3 6
  ++ [Step 3 (Pooled 0)] ++ steps_of 3 4               (* goroutine 3 waits on cell 0 *)
  ++ [Go CallClose] ++ steps_of 4 6.                   (* Close *)

(** A [Take] that registers on a closed list.  Goroutine 0 calls [Take] and
    reads [closed] (line 112) while the list is open; goroutine 1 runs
    [Close] from start to end; goroutine 0 goes on, queues cell 0 and
    blocks; the goroutine it started has its [Put] refused. *)
Definition late_waiter : list (@event Z) :=
  [Go (CallTake 0 NilLoad)] ++ steps_of 0 3            (* past the closed check *)
  ++ [Go CallClose] ++ steps_of 1 4                    (* Close, whole *)
  ++ steps_of 0 8                                      (* goroutine 0 waits on cell 0 *)
  ++ steps_of 2 2.                                     (* Put(load()) returns false *)

(** One waiter queued on cell 0, cell 1 on the free-list; a registration
    that reuses cell 1, a handoff, a registration with a new cell, two
    handoffs: cells 0, 1 and 2 receive 5, 6 and 7. *)
Definition fifo_state : @world Z :=
  mkWorld (mkList 0 0 None Lifo.empty 0 None (Fifo.mk [0]) [1] false)
          [mkChan [] false; mkChan [] false] ∅ 0.

Definition fifo_ops : list (@op Z) :=
  [Register 0 NilLoad (Pooled 0); Handoff 5%Z; Register 1 UserLoad Auto;
   Handoff 6%Z; Handoff 7%Z].

(** The start of the package's own test: [MaxItems = 2]; a [Take]
    constructs item 0, which is put back and taken again; a further [Take]
    constructs item 1. *)
Definition two_loads : list (@event Z) :=
  [Go (CallTake 0 UserLoad)] ++ steps_of 0 11
  ++ [Step 1 (Loaded 0%Z)] ++ steps_of 1 5 ++ steps_of 0 2
  ++ [Go (CallPut 0%Z)] ++ steps_of 2 11
  ++ [Go (CallTake 0 UserLoad)] ++ steps_of 3 3
  ++ [Go (CallTake 0 UserLoad)] ++ steps_of 4 11
  ++ [Step 5 (Loaded 1%Z)] ++ steps_of 5 5 ++ steps_of 4 2.

Definition after_two_loads : @machine Z :=
  Eval vm_compute in default (boot 2 3) (run 0%Z two_loads (boot 2 3)).

(** [MaxWaiters = 1] and one waiter queued. *)
Definition full_state : @world Z :=
  mkWorld (mkList 1 1 None Lifo.empty 1 None (Fifo.mk [0]) [] false)
          [mkChan [] false] ∅ 1.

(** Two waiters queued on an open list; [Put] serves the first, [Close]
    closes the cells of both. *)
Definition waiting_state : @world Z :=
  mkWorld (mkList 1 0 None Lifo.empty 1 None (Fifo.mk [0; 1]) [] false)
          [mkChan [] false; mkChan [] false] ∅ 1.

(** An open list without waiters and with one ready item. *)
Definition stacked_state : @world Z :=
  mkWorld (mkList 0 0 None (Lifo.mk [3%Z]) 0 None Fifo.empty [] false) [] ∅ 0.

(** The package's test [TestList], call by call: [MaxItems = 2],
    [MaxWaiters = 3]; the loader returns 0, 1, ... in turn. *)
Definition TestList : list (@event Z) :=
  (* checkTake(0) *)
  [Go (CallTake 0 UserLoad)] ++ steps_of 0 11
  ++ [Step 1 (Loaded 0%Z)] ++ steps_of 1 5 ++ steps_of 0 2
  (* checkPutOK(0); checkTake(0) *)
  ++ [Go (CallPut 0%Z)] ++ steps_of 2 11
  ++ [Go (CallTake 0 UserLoad)] ++ steps_of 3 3
  (* checkTake(1) *)
  ++ [Go (CallTake 0 UserLoad)] ++ steps_of 4 6 ++ [Step 4 (Pooled 0)] ++ steps_of 4 4
  ++ [Step 5 (Loaded 1%Z)] ++ steps_of 5 5 ++ steps_of 4 2
  (* for i := range 3 { go checkTake(i % 2) } *)
  ++ [Go (CallTake 0 UserLoad)] ++ steps_of 6 6 ++ [Step 6 (Pooled 0)] ++ steps_of 6 4
  ++ [Go (CallTake 0 UserLoad)] ++ steps_of 7 11
  ++ [Go (CallTake 0 UserLoad)] ++ steps_of 8 11
  (* checkTake(-1) *)
  ++ [Go (CallTake 0 UserLoad)] ++ steps_of 9 8
  (* checkPutOK(0); checkPutOK(1); checkPutOK(0) *)
  ++ [Go (CallPut 0%Z)] ++ steps_of 10 5 ++ steps_of 6 2
  ++ [Go (CallPut 1%Z)] ++ steps_of 11 5 ++ steps_of 7 2
  ++ [Go (CallPut 0%Z)] ++ steps_of 12 5 ++ steps_of 8 2
  (* p.Close(); p.Put(42) *)
  ++ [Go CallClose] ++ steps_of 13 4
  ++ [Go (CallPut 42%Z)] ++ steps_of 14 1.

(** An open list with no ready item, and a context that is cancelled. *)
Definition cancelled_state : @world Z :=
  mkWorld (mkList 0 0 None Lifo.empty 0 None Fifo.empty [] false) [] {[0 := Cause 7]} 0.

(** A waiter whose cell, off the Waiter Queue, holds the value 5. *)
Definition delivered_state : @world Z :=
  mkWorld (mkList 1 0 None Lifo.empty 1 None Fifo.empty [] false)
          [mkChan [5%Z] false] {[0 := Cause 7]} 1.

(** A [Take] that holds both mutexes, a [TryTake] that waits for [readyMu]
    and a [Put] that has not started. *)
Definition lock_contention : list (@event Z) :=
  [Go (CallTake 0 NilLoad); Go CallTryTake; Go (CallPut 1%Z)] ++ steps_of 0 5.

Definition during_lock_contention : @machine Z :=
  Eval vm_compute in default (boot 0 0) (run 0%Z lock_contention (boot 0 0)).

Definition after_TestList : @machine Z :=
  Eval vm_compute in default (boot 2 3) (run 0%Z TestList (boot 2 3)).

(** [MaxItems = -1]: a [Take] waits, a [Put] of the caller serves it. *)
Definition served_by_Put : list (@event Z) :=
  [Go (CallTake 0 UserLoad)] ++ steps_of 0 11
  ++ [Go (CallPut 4%Z)] ++ steps_of 1 5 ++ steps_of 0 2.

Definition after_served_by_Put : @machine Z :=
  Eval vm_compute in default (boot (-1) 0) (run 0%Z served_by_Put (boot (-1) 0)).

(** * Proofs *)

Section proofs.

Context {Item : Type}.
Variable zero : Item.

Local Abbreviation thread_step := (thread_step zero).
Local Abbreviation exec := (exec zero).
Local Abbreviation fire := (fire zero).
Local Abbreviation run := (run zero).
Local Abbreviation reachable := (reachable zero).
Local Abbreviation do_op := (do_op zero).
Local Abbreviation serve := (serve zero).
Local Abbreviation world := (@world Item).
Local Abbreviation pc := (@pc Item).
Local Abbreviation machine := (@machine Item).
Local Abbreviation event := (@event Item).
Local Abbreviation op := (@op Item).
Local Abbreviation List := (@List Item).
Local Abbreviation Chan := (@Chan Item).
Local Abbreviation pending := (@pending Item).
Local Abbreviation holdsW := (@holdsW Item).
Local Abbreviation may_grow := (@may_grow Item).
Local Abbreviation holdsR := (@holdsR Item).
Local Abbreviation held := (@held Item).
Local Abbreviation calm := (@calm Item).
Local Abbreviation steady_event := (@steady_event Item).
Local Abbreviation seq_call := (seq_call zero).
Local Abbreviation seq_calls := (seq_calls zero).
Local Abbreviation loaded := (loaded zero).
Local Abbreviation locks_mutex := (@locks_mutex Item).
Local Abbreviation owner_inv := (@owner_inv Item).
Local Abbreviation justified := (@justified Item).
Local Abbreviation cancelled_with := (@cancelled_with Item).
Local Abbreviation verdict_ok := (@verdict_ok Item).
Local Abbreviation verdict_inv := (@verdict_inv Item).
Local Abbreviation carried := (@carried Item).
Local Abbreviation stock := (@stock Item).
Local Abbreviation brought := (brought zero).
Local Abbreviation supply := (supply zero).

(** Opens the records of a state, so that the steps compute. *)
Ltac open_world w :=
  let p := fresh "p" in
  destruct w as [p ? ? ?];
  destruct p as [? ? ? [?] ? ? [?] ? ?];
  cbn in *; simplify_eq.

Lemma exec_O (me : tid) (c : choice Item) (k : pc) (w : world) :
  exec me c 0 k w = Ended k w [].
Proof. reflexivity. Qed.

Lemma exec_S (me : tid) (c : choice Item) (n : nat) (k : pc) (w : world) :
  exec me c (S n) k w
  = match thread_step me c k w with
    | Blocked => Ended k w []
    | Crash e => Panicked e
    | Next k' w' sp =>
        match exec me c n k' w' with
        | Ended k'' w'' sps => Ended k'' w'' (option_list sp ++ sps)
        | Panicked e => Panicked e
        end
    end.
Proof. reflexivity. Qed.

(** Computes the steps that are in evaluation position. *)
Ltac red_step :=
  cbv beta iota zeta delta
    [thread_step lockR lockW goto unlockR unlockW pool_put
     with_pool set_chans set_ctxs count_call set_readyMu set_ready set_loads
     set_waitersMu set_waiters set_chanPool set_closed
     pool chans ctxs calls MaxItems MaxWaiters readyMu ready loads waitersMu
     waiters chanPool closed Fifo.Shift Fifo.Unshift Fifo.Len Fifo.DeleteFunc
     Fifo.a Lifo.a Lifo.Push];
  cbn [app option_list].

(** Runs the steps of a goroutine as far as the state is known. *)
Ltac steps :=
  red_step; repeat (rewrite exec_S; red_step); rewrite ?exec_O; red_step.

(** Splits a step that was taken into its cases. *)
Ltac step_cases H :=
  cbn in H; unfold lockR, lockW, goto in H;
  repeat case_match; simplify_eq; cbn in *.

(** ** The two queues *)

Lemma Pop_nil : Lifo.Pop (Lifo.mk (@nil Item)) = None.
Proof. reflexivity. Qed.

Lemma Pop_snoc (xs : list Item) (x : Item) :
  Lifo.Pop (Lifo.mk (xs ++ [x])) = Some (x, Lifo.mk xs).
Proof.
  unfold Lifo.Pop; cbn [Lifo.a].
  by rewrite last_snoc, removelast_last.
Qed.

Lemma Pop_Push (v : Item) (q : Lifo.t Item) : Lifo.Pop (Lifo.Push v q) = Some (v, q).
Proof. destruct q as [xs]. apply Pop_snoc. Qed.

(** ** TryTake *)

(** C9.  Called while no other goroutine holds [readyMu], [TryTake] returns
    the top of the Ready Stack with [ok = true] and takes it off, or returns
    the zero value with [ok = false] and changes nothing; whether the list
    is closed plays no part.  The same holds of a [TryTake] that had to wait
    for [readyMu], in the state in which it gets it.  And in every
    execution, each step of a [TryTake] leaves the Waiter Queue and its
    mutex, [loads], [closed], the channels, the free-list and the count of
    [load] calls as they are, and starts no goroutine. *)
Theorem TryTake_pops_ready_only (me : tid) (c : choice Item) (w : world) :
  readyMu (pool w) = None ->
  (forall xs x, Lifo.a (ready (pool w)) = xs ++ [x] ->
     exec me c 3 TryLock w
     = Ended (Done (RetTryTake x true)) (with_pool (set_ready (Lifo.mk xs) (pool w)) w) [])
  /\ (Lifo.a (ready (pool w)) = [] ->
     exec me c 3 TryLock w = Ended (Done (RetTryTake zero false)) w [])
  /\ (forall w0 xs x, Lifo.a (ready (pool w0)) = xs ++ [x] ->
     exec me c 2 TryPop w0
     = Ended (Done (RetTryTake x true))
         (unlockR (with_pool (set_ready (Lifo.mk xs) (pool w0)) w0)) [])
  /\ (forall w0, Lifo.a (ready (pool w0)) = [] ->
     exec me c 2 TryPop w0 = Ended (Done (RetTryTake zero false)) (unlockR w0) [])
  /\ (forall t c0 k w0 k' w' sp,
     in_TryTake k = true ->
     thread_step t c0 k w0 = Next k' w' sp ->
     waiters (pool w') = waiters (pool w0) /\ waitersMu (pool w') = waitersMu (pool w0)
     /\ loads (pool w') = loads (pool w0) /\ closed (pool w') = closed (pool w0)
     /\ chanPool (pool w') = chanPool (pool w0) /\ chans w' = chans w0
     /\ calls w' = calls w0 /\ sp = None
     /\ (in_TryTake k' = true \/ exists v ok, k' = Done (RetTryTake v ok))).
Proof.
  intros Hfree. split_and!.
  - intros xs x Hr. open_world w. steps. rewrite Pop_snoc. by steps.
  - intros Hr. open_world w. steps. rewrite Pop_nil. by steps.
  - intros w0 xs x Hr. open_world w0. steps. rewrite Pop_snoc. by steps.
  - intros w0 Hr. open_world w0. steps. rewrite Pop_nil. by steps.
  - intros t c0 k w0 k' w' sp Hk Hs.
    destruct k; try discriminate Hk; step_cases Hs; eauto 12.
Qed.

(** ** Take with a ready item *)

(** C3.  On a list whose Ready Stack is not empty, a [Take] called while no
    other goroutine holds [readyMu] returns the top item with a nil error
    after three steps (lock, pop, unlock) and only takes that item off; a
    [Take] that had to wait for [readyMu] does the same in the state in
    which it gets it.  The closed flag and the context are not read on the
    way: the statement holds whatever they are, so for a closed list and for
    a cancelled context too. *)
Theorem Take_ready_item_first (me : tid) (c : choice Item) (ctx : ctx_id)
    (load : loader) (w : world) (xs : list Item) (x : Item) :
  Lifo.a (ready (pool w)) = xs ++ [x] ->
  (readyMu (pool w) = None ->
   exec me c 3 (TakeLockReady ctx load) w
   = Ended (Done (RetTake x None)) (with_pool (set_ready (Lifo.mk xs) (pool w)) w) [])
  /\ exec me c 2 (TakePop ctx load) w
     = Ended (Done (RetTake x None))
         (unlockR (with_pool (set_ready (Lifo.mk xs) (pool w)) w)) [].
Proof.
  intros Hr. split.
  - intros Hfree. open_world w. steps. rewrite Pop_snoc. by steps.
  - open_world w. steps. rewrite Pop_snoc. by steps.
Qed.

(** ** Put *)

Lemma chan_send_idle (cs : list Chan) (ch : chan) (v : Item) :
  idle cs ch -> chan_send ch v cs = Sent (<[ch := mkChan [v] false]> cs).
Proof. unfold idle, chan_send. by intros ->. Qed.

(** The slow path of [Put] (from line 204 on), run alone. *)
Lemma Put_slow_path (me : tid) (c : choice Item) (v : Item) (w : world) :
  readyMu (pool w) = None ->
  waitersMu (pool w) = None ->
  (closed (pool w) = true ->
     exec me c 7 (PutLockReady v) w = Ended (Done (RetPut false)) w [])
  /\ (closed (pool w) = false ->
     forall ch q, Fifo.a (waiters (pool w)) = ch :: q -> idle (chans w) ch ->
     exec me c 7 (PutLockReady v) w
     = Ended (Done (RetPut true))
         (set_chans (<[ch := mkChan [v] false]> (chans w))
            (with_pool (set_waiters (Fifo.mk q) (pool w)) w)) [])
  /\ (closed (pool w) = false ->
     Fifo.a (waiters (pool w)) = [] ->
     exec me c 7 (PutLockReady v) w
     = Ended (Done (RetPut true))
         (with_pool (set_ready (Lifo.Push v (ready (pool w))) (pool w)) w) []).
Proof.
  intros HR HW. split; [|split].
  - intros Hc. open_world w. by steps.
  - intros Hc ch q Hq Hidle. open_world w. steps.
    rewrite (chan_send_idle _ _ _ Hidle). by steps.
  - intros Hc Hq. open_world w. by steps.
Qed.

(** A goroutine that holds [waitersMu] can always take its next step, and
    one that holds [readyMu] can unless it waits for [waitersMu]: no mutex
    is held for ever. *)
Lemma lock_holders_move (t : tid) (c : choice Item) (k : pc) (w : world) :
  thread_step t c k w = Blocked ->
  holdsW k = false
  /\ (holdsR k = true ->
      waitersMu (pool w) <> None
      /\ ((exists ctx load, k = TakeLockWaiters ctx load)
          \/ exists v, k = HandoffLock Slow v)).
Proof.
  intros Hs.
  destruct k; step_cases Hs; unfold chan_send, chan_recv, chan_close in *;
    repeat case_match; simplify_eq; split; try done; intros; try done;
    try (split; [done|]); eauto.
Qed.

(** X22.  Run while no other goroutine holds a mutex, [Put(v)] returns false
    and changes nothing on a closed list; on an open list whose Waiter Queue
    has the head [ch], an open and empty cell, it takes [ch] off the queue,
    writes [v] into it and returns true, the Ready Stack unchanged; on an
    open list without waiters it pushes [v] on the Ready Stack and returns
    true.  The second half of [Put], entered after a first handoff attempt
    found no waiter, does the same three things in the state it then finds:
    the closed flag and the Waiter Queue are looked at again before the push.
    And [Put] never waits for anything but a mutex: the only steps of [Put]
    that can be blocked are the two lock acquisitions, when the mutex is
    held; and the holder of a mutex is never blocked, except to wait for
    [waitersMu] while holding [readyMu]. *)
Theorem Put_hands_off_or_stacks (me : tid) (c : choice Item) (v : Item) (w : world) :
  readyMu (pool w) = None ->
  waitersMu (pool w) = None ->
  (closed (pool w) = true ->
     exec me c 11 (PutChkClosed v) w = Ended (Done (RetPut false)) w [])
  /\ (closed (pool w) = false ->
     forall ch q, Fifo.a (waiters (pool w)) = ch :: q -> idle (chans w) ch ->
     exec me c 11 (PutChkClosed v) w
     = Ended (Done (RetPut true))
         (set_chans (<[ch := mkChan [v] false]> (chans w))
            (with_pool (set_waiters (Fifo.mk q) (pool w)) w)) [])
  /\ (closed (pool w) = false ->
     Fifo.a (waiters (pool w)) = [] ->
     exec me c 11 (PutChkClosed v) w
     = Ended (Done (RetPut true))
         (with_pool (set_ready (Lifo.Push v (ready (pool w))) (pool w)) w) [])
  /\ ((closed (pool w) = true ->
         exec me c 7 (PutLockReady v) w = Ended (Done (RetPut false)) w [])
      /\ (closed (pool w) = false ->
         forall ch q, Fifo.a (waiters (pool w)) = ch :: q -> idle (chans w) ch ->
         exec me c 7 (PutLockReady v) w
         = Ended (Done (RetPut true))
             (set_chans (<[ch := mkChan [v] false]> (chans w))
                (with_pool (set_waiters (Fifo.mk q) (pool w)) w)) [])
      /\ (closed (pool w) = false ->
         Fifo.a (waiters (pool w)) = [] ->
         exec me c 7 (PutLockReady v) w
         = Ended (Done (RetPut true))
             (with_pool (set_ready (Lifo.Push v (ready (pool w))) (pool w)) w) []))
  /\ (forall t c0 k w0,
     in_Put k = true ->
     thread_step t c0 k w0 = Blocked ->
     (exists ph v0, k = HandoffLock ph v0 /\ waitersMu (pool w0) <> None)
     \/ (exists v0, k = PutLockReady v0 /\ readyMu (pool w0) <> None))
  /\ (forall t c0 k w0,
     thread_step t c0 k w0 = Blocked ->
     holdsW k = false
     /\ (holdsR k = true ->
         waitersMu (pool w0) <> None
         /\ ((exists ctx load, k = TakeLockWaiters ctx load)
             \/ exists v0, k = HandoffLock Slow v0))).
Proof.
  intros HR HW. split_and!.
  - intros Hc. open_world w. by steps.
  - intros Hc ch q Hq Hidle. open_world w. steps.
    rewrite (chan_send_idle _ _ _ Hidle). by steps.
  - intros Hc Hq. open_world w. by steps.
  - by apply Put_slow_path.
  - by apply Put_slow_path.
  - by apply Put_slow_path.
  - intros t c0 k w0 Hk Hs.
    destruct k; try discriminate Hk; step_cases Hs; eauto 8.
    all: unfold chan_send in *; repeat case_match; simplify_eq.
  - apply lock_holders_move.
Qed.

(** ** Put then TryTake *)

(** C10.  On an open list without waiters, while no other goroutine holds a
    mutex, [Put(v)] returns true and a [TryTake] that follows returns
    [(v, true)], which leaves the list as it was before the [Put]. *)
Theorem Put_then_TryTake (me me' : tid) (c c' : choice Item) (v : Item) (w : world) :
  readyMu (pool w) = None ->
  waitersMu (pool w) = None ->
  closed (pool w) = false ->
  Fifo.a (waiters (pool w)) = [] ->
  exists w1,
    exec me c 11 (PutChkClosed v) w = Ended (Done (RetPut true)) w1 []
    /\ ready (pool w1) = Lifo.Push v (ready (pool w))
    /\ exec me' c' 3 TryLock w1 = Ended (Done (RetTryTake v true)) w [].
Proof.
  intros HR HW Hc Hq.
  exists (with_pool (set_ready (Lifo.Push v (ready (pool w))) (pool w)) w).
  open_world w. split; [by steps|]. split; [done|].
  steps. rewrite Pop_snoc. by steps.
Qed.

(** ** The goroutines together *)

Lemma fire_inv (e : event) (m m' : machine) :
  fire e m = Some m' ->
  (exists cl, e = Go cl /\ shared m' = shared m /\ threads m' = threads m ++ [entry cl])
  \/ (exists ctx n, e = CancelCtx ctx n /\ shared m' = cancel ctx n (shared m)
        /\ threads m' = threads m)
  \/ (exists t c k pe, e = Step t c /\ threads m !! t = Some k
        /\ thread_step t c k (shared m) = Crash pe
        /\ shared m' = shared m /\ threads m' = threads m)
  \/ (exists t c k k' sp, e = Step t c /\ threads m !! t = Some k
        /\ thread_step t c k (shared m) = Next k' (shared m') sp
        /\ threads m' = <[t := k']> (threads m) ++ option_list sp).
Proof.
  unfold fire. intros H. destruct (crashed m); [done|].
  destruct e as [cl|ctx n|t c].
  - left. simplify_eq. eauto.
  - right; left. simplify_eq. eauto.
  - destruct (threads m !! t) as [k|] eqn:Hk; [|done].
    destruct (thread_step t c k (shared m)) as [|pe|k' w' sp] eqn:Hs; simplify_eq.
    + right; right; left. cbn. eauto 10.
    + right; right; right. cbn. eauto 10.
Qed.

(** A property that holds at the start and that no event breaks holds in
    every state of every run. *)
Lemma run_invariant (P : machine -> Prop) :
  (forall e m m', P m -> fire e m = Some m' -> P m') ->
  forall es m m', P m -> run es m = Some m' -> P m'.
Proof.
  intros Hstep es. induction es as [|e es IH]; intros m m' HP Hrun; cbn in Hrun.
  - by simplify_eq.
  - destruct (fire e m) as [m1|] eqn:He; [|done]. eauto.
Qed.

(** The goroutines after a step of [t]: [t] itself, the others, the new
    one. *)
Lemma threads_after_step (l : list pc) (t t' : tid) (k k' k'' : pc) (sp : option pc) :
  l !! t = Some k ->
  (<[t := k']> l ++ option_list sp) !! t' = Some k'' ->
  (t' = t /\ k'' = k') \/ (t' <> t /\ l !! t' = Some k'') \/ sp = Some k''.
Proof.
  intros Hk H. apply lookup_app_Some in H as [H|[Hlen H]].
  - destruct (decide (t' = t)) as [->|Hne].
    + rewrite list_lookup_insert_eq in H by eauto using lookup_lt_Some.
      left. by simplify_eq.
    + rewrite list_lookup_insert_ne in H by done. eauto.
  - destruct sp as [k0|]; cbn in H; [|by rewrite lookup_nil in H].
    apply list_lookup_singleton_Some in H as [_ ->]. eauto.
Qed.

Lemma sum_pending_insert (l : list pc) (t : tid) (k k' : pc) :
  l !! t = Some k ->
  sum_list_with pending (<[t := k']> l) + pending k
  = sum_list_with pending l + pending k'.
Proof.
  revert t. induction l as [|x l IH]; intros [|t] H; simplify_eq/=.
  - lia.
  - specialize (IH _ H). unfold insert in *. lia.
Qed.

(** ** Close is for good *)

Lemma step_closed (t : tid) (c : choice Item) (k k' : pc) (w w' : world) (sp : option pc) :
  thread_step t c k w = Next k' w' sp ->
  closed (pool w) = true -> closed (pool w') = true.
Proof. intros Hs Hc. destruct k; step_cases Hs; done. Qed.

Lemma fire_closed (e : event) (m m' : machine) :
  fire e m = Some m' ->
  closed (pool (shared m)) = true -> closed (pool (shared m')) = true.
Proof.
  intros Hf Hc.
  destruct (fire_inv _ _ _ Hf) as
    [(cl & -> & Hw & _)|[(ctx & n & -> & Hw & _)|[(t & c & k & pe & -> & _ & _ & Hw & _)
    |(t & c & k & k' & sp & -> & _ & Hs & _)]]].
  - by rewrite Hw.
  - rewrite Hw. unfold cancel. by destruct (ctxs (shared m) !! ctx).
  - by rewrite Hw.
  - eauto using step_closed.
Qed.

(** ** The Waiter Queue and its mutex *)

(** What one step does to the Waiter Queue, its mutex and the limits. *)
Lemma step_waiters (t : tid) (c : choice Item) (k k' : pc) (w w' : world) (sp : option pc) :
  thread_step t c k w = Next k' w' sp ->
  MaxWaiters (pool w') = MaxWaiters (pool w)
  /\ MaxItems (pool w') = MaxItems (pool w)
  /\ (forall k0, sp = Some k0 -> holdsW k0 = false)
  /\ (if holdsW k
      then waitersMu (pool w') = (if holdsW k' then waitersMu (pool w) else None)
      else if holdsW k'
           then waitersMu (pool w) = None /\ waitersMu (pool w') = Some t
           else waitersMu (pool w') = waitersMu (pool w))
  /\ (Fifo.Len (waiters (pool w')) <= Fifo.Len (waiters (pool w))
      \/ (may_grow k = true
          /\ Fifo.Len (waiters (pool w')) = S (Fifo.Len (waiters (pool w)))))
  /\ (may_grow k' = true ->
      waiters (pool w') = waiters (pool w)
      /\ (may_grow k = true
          \/ ((0 < MaxWaiters (pool w))%Z ->
              (Z.of_nat (Fifo.Len (waiters (pool w))) < MaxWaiters (pool w))%Z))).
Proof.
  intros Hs.
  destruct k; step_cases Hs; unfold Fifo.Shift, Fifo.Len in *;
    repeat case_match; simplify_eq; cbn in *;
    repeat split; try done; try (intros; discriminate); try (left; lia).
  - right. intros Hpos.
    match goal with H : _ && _ = false |- _ => apply andb_false_iff in H as [H|H] end; lia.
  - right. by rewrite length_app, Nat.add_comm.
  - by intros k0 [= <-].
  - left. apply List.filter_length_le.
Qed.

Lemma cancel_frame (ctx : ctx_id) (n : error) (w : world) :
  pool (cancel ctx n w) = pool w /\ calls (cancel ctx n w) = calls w
  /\ chans (cancel ctx n w) = chans w.
Proof. unfold cancel. by destruct (ctxs w !! ctx). Qed.

Lemma entry_outside (cl : call) :
  holdsW (entry cl) = false /\ may_grow (entry cl) = false /\ pending (entry cl) = 0.
Proof. by destruct cl. Qed.

Lemma fire_waiters_inv (e : event) (m m' : machine) :
  waiters_inv m -> fire e m = Some m' -> waiters_inv m'.
Proof.
  intros (Hlen & Hmu & Hroom) Hf. unfold waiters_inv.
  destruct (fire_inv _ _ _ Hf) as
    [(cl & -> & Hw & Ht)|[(ctx & n & -> & Hw & Ht)|[(t & c & k & pe & -> & _ & _ & Hw & Ht)
    |(t & c & k & k' & sp & -> & Hk & Hs & Ht)]]].
  - rewrite Hw, Ht. destruct (entry_outside cl) as (Hh & Hg & _).
    split; [done|]. split; intros t k H; apply lookup_app_Some in H as [H|[_ H]]; eauto;
      apply list_lookup_singleton_Some in H as [_ <-]; congruence.
  - rewrite Hw, Ht. destruct (cancel_frame ctx n (shared m)) as (-> & _). eauto.
  - rewrite Hw, Ht. eauto.
  - destruct (step_waiters _ _ _ _ _ _ _ Hs) as (HMW & _ & Hsp & Hlock & Hq & Hgrow).
    rewrite Ht, HMW.
    assert (forall t0 k0, t0 <> t -> threads m !! t0 = Some k0 -> holdsW k0 = true ->
              waitersMu (pool (shared m')) = waitersMu (pool (shared m))) as Hother.
    { intros t0 k0 Hne Hk0 Hh0. pose proof (Hmu _ _ Hk0 Hh0) as Hm0.
      destruct (holdsW k) eqn:Hh.
      - pose proof (Hmu _ _ Hk Hh). congruence.
      - destruct (holdsW k'); [|done]. destruct Hlock. congruence. }
    split; [|split].
    + intros Hpos. destruct Hq as [Hq|[Hg Hq]]; [specialize (Hlen Hpos); lia|].
      specialize (Hroom _ _ Hk Hg Hpos). lia.
    + intros t0 k0 H0 Hh0.
      destruct (threads_after_step _ _ _ _ _ _ _ Hk H0) as [[-> ->]|[[Hne H1]| ->]].
      * rewrite Hh0 in Hlock. destruct (holdsW k) eqn:Hh; [|by destruct Hlock].
        rewrite Hlock. eauto.
      * rewrite (Hother _ _ Hne H1 Hh0). eauto.
      * rewrite (Hsp _ eq_refl) in Hh0. done.
    + intros t0 k0 H0 Hg0 Hpos.
      destruct (threads_after_step _ _ _ _ _ _ _ Hk H0) as [[-> ->]|[[Hne H1]| ->]].
      * destruct (Hgrow Hg0) as [-> [Hg|Hr]]; eauto.
      * assert (holdsW k0 = true) as Hh0 by (by destruct k0).
        pose proof (Hmu _ _ H1 Hh0) as Hm0.
        destruct Hq as [Hq|[Hg Hq]]; [specialize (Hroom _ _ H1 Hg0 Hpos); lia|].
        assert (holdsW k = true) as Hh by (by destruct k).
        pose proof (Hmu _ _ Hk Hh). congruence.
      * pose proof (Hsp _ eq_refl). by destruct k0.
Qed.

Lemma fire_limits (e : event) (m m' : machine) :
  fire e m = Some m' ->
  MaxItems (pool (shared m')) = MaxItems (pool (shared m))
  /\ MaxWaiters (pool (shared m')) = MaxWaiters (pool (shared m)).
Proof.
  intros Hf.
  destruct (fire_inv _ _ _ Hf) as
    [(cl & -> & Hw & _)|[(ctx & n & -> & Hw & _)|[(t & c & k & pe & -> & _ & _ & Hw & _)
    |(t & c & k & k' & sp & -> & _ & Hs & _)]]]; rewrite ?Hw; try done.
  - by destruct (cancel_frame ctx n (shared m)) as (-> & _).
  - destruct (step_waiters _ _ _ _ _ _ _ Hs) as (? & ? & _). done.
Qed.

Lemma reachable_limits (mi mw : Z) (m : machine) :
  reachable mi mw m ->
  MaxItems (pool (shared m)) = mi /\ MaxWaiters (pool (shared m)) = mw.
Proof.
  intros [es Hrun]. revert Hrun.
  apply (run_invariant
    (fun m => MaxItems (pool (shared m)) = mi /\ MaxWaiters (pool (shared m)) = mw));
    [|done].
  intros e m0 m1 [<- <-] Hf. by apply fire_limits in Hf.
Qed.

Lemma reachable_waiters_inv (mi mw : Z) (m : machine) :
  reachable mi mw m -> waiters_inv m.
Proof.
  intros [es Hrun]. revert Hrun.
  apply (run_invariant waiters_inv); [apply fire_waiters_inv|].
  split; [|split]; cbn; [lia|intros ? ? H..]; by rewrite lookup_nil in H.
Qed.

(** What one step does to [readyMu]. *)
Lemma step_readyMu (t : tid) (c : choice Item) (k k' : pc) (w w' : world) (sp : option pc) :
  thread_step t c k w = Next k' w' sp ->
  (forall k0, sp = Some k0 -> holdsR k0 = false)
  /\ (if holdsR k
      then readyMu (pool w') = (if holdsR k' then readyMu (pool w) else None)
      else if holdsR k'
           then readyMu (pool w) = None /\ readyMu (pool w') = Some t
           else readyMu (pool w') = readyMu (pool w)).
Proof.
  intros Hs.
  destruct k; step_cases Hs; repeat case_match; simplify_eq; cbn in *;
    split; try done; by intros k0 [= <-].
Qed.

Lemma fire_readyMu (e : event) (m m' : machine) :
  (forall t k, threads m !! t = Some k -> holdsR k = true ->
     readyMu (pool (shared m)) = Some t) ->
  fire e m = Some m' ->
  forall t k, threads m' !! t = Some k -> holdsR k = true ->
    readyMu (pool (shared m')) = Some t.
Proof.
  intros Hmu Hf.
  destruct (fire_inv _ _ _ Hf) as
    [(cl & -> & Hw & Ht)|[(ctx & n & -> & Hw & Ht)|[(t & c & k & pe & -> & _ & _ & Hw & Ht)
    |(t & c & k & k' & sp & -> & Hk & Hs & Ht)]]].
  - rewrite Hw, Ht. intros t k H Hh. apply lookup_app_Some in H as [H|[_ H]]; eauto.
    apply list_lookup_singleton_Some in H as [_ <-]. by destruct cl.
  - rewrite Hw, Ht. destruct (cancel_frame ctx n (shared m)) as (-> & _). eauto.
  - rewrite Hw, Ht. eauto.
  - destruct (step_readyMu _ _ _ _ _ _ _ Hs) as (Hsp & Hlock).
    rewrite Ht. intros t0 k0 H0 Hh0.
    destruct (threads_after_step _ _ _ _ _ _ _ Hk H0) as [[-> ->]|[[Hne H1]| ->]].
    + rewrite Hh0 in Hlock. destruct (holdsR k) eqn:Hh; [|by destruct Hlock].
      rewrite Hlock. eauto.
    + pose proof (Hmu _ _ H1 Hh0) as Hm0.
      destruct (holdsR k) eqn:Hh.
      * pose proof (Hmu _ _ Hk Hh). congruence.
      * destruct (holdsR k'); [destruct Hlock; congruence|congruence].
    + rewrite (Hsp _ eq_refl) in Hh0. done.
Qed.

Lemma reachable_mutex_inv (mi mw : Z) (m : machine) :
  reachable mi mw m -> mutex_inv m.
Proof.
  intros Hm. split; [|by apply (reachable_waiters_inv _ _ _ Hm)].
  destruct Hm as [es Hrun]. revert Hrun.
  apply (run_invariant (fun m => forall t k, threads m !! t = Some k ->
           holdsR k = true -> readyMu (pool (shared m)) = Some t)).
  - intros e m0 m1. apply fire_readyMu.
  - intros t k H. cbn in H. by rewrite lookup_nil in H.
Qed.

(** C7.  A [Take] that runs while no other goroutine holds a mutex, on an
    open list with an empty Ready Stack, a context that is not cancelled and
    a Waiter Queue that holds [MaxWaiters > 0] entries or more, returns
    [ErrMaxWaiters] after eight steps and leaves the whole state as it was:
    no waiter registered, [loads] untouched, no goroutine started.  And in
    every state of every execution of a list with [MaxWaiters > 0] the
    Waiter Queue holds at most [MaxWaiters] entries. *)
Theorem Take_MaxWaiters_enforced (me : tid) (c : choice Item) (ctx : ctx_id)
    (load : loader) (w : world) :
  readyMu (pool w) = None ->
  waitersMu (pool w) = None ->
  Lifo.a (ready (pool w)) = [] ->
  closed (pool w) = false ->
  ctxs w !! ctx = None ->
  (0 < MaxWaiters (pool w))%Z ->
  (MaxWaiters (pool w) <= Z.of_nat (Fifo.Len (waiters (pool w))))%Z ->
  exec me c 8 (TakeLockReady ctx load) w
  = Ended (Done (RetTake zero (Some ErrMaxWaiters))) w []
  /\ (forall mi mw m, reachable mi mw m -> (0 < mw)%Z ->
        (Z.of_nat (Fifo.Len (waiters (pool (shared m)))) <= mw)%Z).
Proof.
  intros HR HW Hr Hc Hctx Hpos Hfull. split.
  - open_world w. steps. rewrite Pop_nil. steps. rewrite Hctx. steps.
    apply Z.ltb_lt in Hpos as ->. apply Z.leb_le in Hfull as ->. by steps.
  - intros mi mw m Hm Hmw.
    destruct (reachable_limits _ _ _ Hm) as [_ <-].
    by apply (reachable_waiters_inv _ _ _ Hm).
Qed.

(** ** The construction budget *)

Lemma int_wrap_id (z : Z) : (int_min <= z <= int_max)%Z -> int_wrap z = z.
Proof.
  unfold int_wrap, int_min, int_max. intros Hz.
  rewrite Z.mod_small; lia.
Qed.

(** What one step does to [loads] and to the [load] calls made and still to
    be made. *)
Lemma step_loads (t : tid) (c : choice Item) (k k' : pc) (w w' : world) (sp : option pc) :
  thread_step t c k w = Next k' w' sp ->
  (loads (pool w') = loads (pool w)
   /\ sp = None
   /\ calls w' + pending k' = calls w + pending k)
  \/ (exists ctx load ch,
        k = TakeStartLoad ctx load ch /\ k' = TakeUnlockW ctx ch
        /\ sp = Some (GoLoad load)
        /\ ctxs w !! ctx = None
        /\ (MaxItems (pool w) = 0 \/ loads (pool w) < MaxItems (pool w))%Z
        /\ loads (pool w') = int_wrap (loads (pool w) + 1)
        /\ calls w' = calls w).
Proof.
  intros Hs. destruct k; step_cases Hs; try (left; split_and!; (done || lia)).
  right. do 3 eexists. split_and!; try done.
  match goal with H : _ || _ = true |- _ => apply orb_true_iff in H as [H|H] end; lia.
Qed.

Lemma fire_loads_inv (e : event) (m m' : machine) :
  (0 < MaxItems (pool (shared m)) <= int_max)%Z ->
  loads_inv m -> fire e m = Some m' -> loads_inv m'.
Proof.
  intros HM (Hb & Hsum) Hf. unfold loads_inv.
  destruct (fire_inv _ _ _ Hf) as
    [(cl & -> & Hw & Ht)|[(ctx & n & -> & Hw & Ht)|[(t & c & k & pe & -> & _ & _ & Hw & Ht)
    |(t & c & k & k' & sp & -> & Hk & Hs & Ht)]]].
  - rewrite Hw, Ht, sum_list_with_app. cbn.
    destruct (entry_outside cl) as (_ & _ & ->). split; [done|]. rewrite <- Hsum. lia.
  - rewrite Hw, Ht. destruct (cancel_frame ctx n (shared m)) as (-> & -> & _). done.
  - by rewrite Hw, Ht.
  - destruct (step_waiters _ _ _ _ _ _ _ Hs) as (_ & HMI & _).
    pose proof (sum_pending_insert _ _ _ k' Hk) as Hins.
    rewrite Ht, HMI, sum_list_with_app.
    destruct (step_loads _ _ _ _ _ _ _ Hs) as
      [(-> & -> & Hcalls)|(ctx & load & ch & -> & -> & -> & _ & Hcap & Hl & Hcalls)].
    + split; [done|]. rewrite <- Hsum. cbn. lia.
    + rewrite Hl, Hcalls, int_wrap_id by (unfold int_min, int_max in *; lia).
      split; [lia|]. rewrite <- Hsum. cbn in *. lia.
Qed.

Lemma reachable_loads_inv (mi mw : Z) (m : machine) :
  (0 < mi <= int_max)%Z -> reachable mi mw m -> loads_inv m.
Proof.
  intros HM [es Hrun].
  assert (MaxItems (pool (shared m)) = mi /\ loads_inv m) as [_ H]; [|done].
  revert Hrun.
  apply (run_invariant (fun m => MaxItems (pool (shared m)) = mi /\ loads_inv m)).
  - intros e m0 m1 [HMI Hinv] Hf. split.
    + apply fire_limits in Hf as [-> _]. done.
    + eapply fire_loads_inv; [|done..]. by rewrite HMI.
  - split; [done|]. split; cbn; [lia|done].
Qed.

(** C2.  In every state of every execution of a list with
    [MaxItems = M > 0], [loads] is at most [M] and the [load] functions have
    been called at most [M] times.  The only step that changes [loads] is
    the one of a [Take] that has just put its cell on the Waiter Queue and
    finds [loads < MaxItems] (or no limit) and its context live: it adds one
    and starts the goroutine that calls [load]; goroutines that call [load]
    are started nowhere else, and no step of [Put] changes [loads]. *)
Theorem loads_bounded_by_MaxItems (M mw : Z) (m : machine) :
  (0 < M <= int_max)%Z ->
  reachable M mw m ->
  (loads (pool (shared m)) <= M)%Z
  /\ (Z.of_nat (calls (shared m)) <= M)%Z
  /\ (forall t c k w k' w' sp,
        thread_step t c k w = Next k' w' sp ->
        (loads (pool w') <> loads (pool w) \/ sp <> None) ->
        exists ctx load ch,
          k = TakeStartLoad ctx load ch
          /\ (MaxItems (pool w) = 0 \/ loads (pool w) < MaxItems (pool w))%Z
          /\ loads (pool w') = int_wrap (loads (pool w) + 1)
          /\ sp = Some (GoLoad load))
  /\ (forall t c k w k' w' sp,
        in_Put k = true -> thread_step t c k w = Next k' w' sp ->
        loads (pool w') = loads (pool w) /\ calls w' = calls w).
Proof.
  intros HM Hm.
  destruct (reachable_limits _ _ _ Hm) as [HMI _].
  destruct (reachable_loads_inv _ _ _ HM Hm) as (Hb & Hsum).
  rewrite HMI in Hb. split_and!.
  - lia.
  - lia.
  - intros t c k w k' w' sp Hs Hch.
    destruct (step_loads _ _ _ _ _ _ _ Hs) as
      [(Hl & Hsp & _)|(ctx & load & ch & -> & _ & -> & _ & Hcap & Hl & _)].
    + destruct Hch; congruence.
    + eauto 10.
  - intros t c k w k' w' sp Hk Hs.
    destruct k; try discriminate Hk; step_cases Hs; done.
Qed.

(** ** Close *)

Lemma exec_step (me : tid) (c : choice Item) (n : nat) (k k' : pc) (w w' : world) :
  thread_step me c k w = Next k' w' None ->
  exec me c (S n) k w = exec me c n k' w'.
Proof. cbn [exec]. intros ->. by destruct (exec me c n k' w'). Qed.

(** The loop of [Close], with [waitersMu] held: it ends, every queued cell
    is closed, no other cell is touched. *)
Lemma Close_drain (me : tid) (c : choice Item) (q : list chan) :
  forall (p : List) (cs : list Chan) (cx : gmap ctx_id error) (n : nat),
  NoDup q ->
  (forall ch, ch ∈ q -> exists b, cs !! ch = Some (mkChan b false)) ->
  exists cs',
    exec me c (2 + 2 * length q) CloseShift
      (mkWorld (set_waiters (Fifo.mk q) p) cs cx n)
    = Ended (Done RetClose)
        (mkWorld (set_waitersMu None (set_waiters (Fifo.mk []) p)) cs' cx n) []
    /\ (forall ch b, ch ∈ q -> cs !! ch = Some (mkChan b false) ->
          cs' !! ch = Some (mkChan b true))
    /\ (forall ch, ch ∉ q -> cs' !! ch = cs !! ch).
Proof.
  induction q as [|ch q IH]; intros p cs cx n Hnd Hopen.
  - exists cs. split; [|split].
    + destruct p. by steps.
    + intros ch b Hin. by apply elem_of_nil in Hin.
    + done.
  - apply NoDup_cons in Hnd as [Hnotin Hnd].
    destruct (Hopen ch ltac:(left)) as [b Hch].
    destruct (IH p (<[ch := mkChan b true]> cs) cx n Hnd) as (cs' & Hex & Hin & Hout).
    { intros ch' Hin'. destruct (Hopen ch' ltac:(by right)) as [b' Hb'].
      exists b'. rewrite list_lookup_insert_ne; [done|]. by intros ->. }
    exists cs'. split; [|split].
    + replace (2 + 2 * length (ch :: q)) with (S (S (2 + 2 * length q)))
        by (cbn [length]; lia).
      rewrite (exec_step _ _ _ _ (CloseChan ch) _
                 (mkWorld (set_waiters (Fifo.mk q) p) cs cx n)) by (by destruct p).
      rewrite (exec_step _ _ _ _ CloseShift _
                 (mkWorld (set_waiters (Fifo.mk q) p) (<[ch := mkChan b true]> cs) cx n)).
      * exact Hex.
      * cbn. unfold chan_close. by rewrite Hch.
    + intros ch' b' Hin' Hb'. apply elem_of_cons in Hin' as [->|Hin'].
      * rewrite Hout by done. simplify_eq.
        apply list_lookup_insert_eq. eauto using lookup_lt_Some.
      * apply Hin; [done|]. rewrite list_lookup_insert_ne; [done|].
        intros ->. done.
    + intros ch' Hnotin'. apply not_elem_of_cons in Hnotin' as [Hne Hnotin'].
      rewrite Hout by done. by apply list_lookup_insert_ne.
Qed.

(** X21.  The first [Close], run while no other goroutine holds [waitersMu]
    on an open list whose queued cells are distinct, open and empty, ends
    after [4 + 2 * n] steps for [n] waiters; then [closed] is set, the
    Waiter Queue is empty, every cell that was queued is closed, nothing
    else has changed, and a [Take] that waits on such a cell finds it ready
    and returns [ErrClosed] (the cancellation case of its [select] cannot be
    taken while its context is live).  On a closed list [Close] returns at
    once and changes nothing, and a [Take] that finds the Ready Stack empty
    returns [ErrClosed].  And [closed], once true, is true in every later
    state of every execution. *)
Theorem Close_once_and_for_good (me : tid) (c : choice Item) (w : world) (q : list chan) :
  waitersMu (pool w) = None ->
  closed (pool w) = false ->
  Fifo.a (waiters (pool w)) = q ->
  NoDup q ->
  (forall ch, ch ∈ q -> idle (chans w) ch) ->
  (exists w',
     exec me c (4 + 2 * length q) CloseSwap w = Ended (Done RetClose) w' []
     /\ pool w' = set_closed true (set_waiters (Fifo.mk []) (pool w))
     /\ (forall ch, ch ∈ q -> chans w' !! ch = Some (mkChan [] true))
     /\ (forall ch, ch ∉ q -> chans w' !! ch = chans w !! ch)
     /\ ctxs w' = ctxs w /\ calls w' = calls w
     /\ (forall t c0 ctx ch, ch ∈ q ->
           (c0 <> CtxDone ->
            exec t c0 2 (TakeSelect ctx ch) w'
            = Ended (Done (RetTake zero (Some ErrClosed))) (pool_put ch w') [])
           /\ (ctxs w' !! ctx = None ->
               thread_step t CtxDone (TakeSelect ctx ch) w' = Blocked)))
  /\ (forall t c0 n w0, closed (pool w0) = true ->
        exec t c0 (S n) CloseSwap w0 = Ended (Done RetClose) w0 [])
  /\ (forall t c0 ctx load w0,
        closed (pool w0) = true -> readyMu (pool w0) = None ->
        Lifo.a (ready (pool w0)) = [] ->
        exec t c0 4 (TakeLockReady ctx load) w0
        = Ended (Done (RetTake zero (Some ErrClosed))) w0 [])
  /\ (forall es m m', run es m = Some m' ->
        closed (pool (shared m)) = true -> closed (pool (shared m')) = true).
Proof.
  intros HW Hc Hq Hnd Hidle. split_and!.
  - destruct w as [p cs cx n]. cbn in HW, Hc, Hq, Hidle.
    destruct (Close_drain me c q (set_waitersMu (Some me) (set_closed true p)) cs cx n Hnd)
      as (cs' & Hex & Hin & Hout).
    { intros ch Hch. exists []. by apply Hidle. }
    eexists. split; [|split_and!].
    + change (4 + 2 * length q) with (S (S (2 + 2 * length q))).
      rewrite (exec_step _ _ _ _ CloseLock _ (mkWorld (set_closed true p) cs cx n))
        by (cbn; by rewrite Hc).
      rewrite (exec_step _ _ _ _ CloseShift _
                 (mkWorld (set_waitersMu (Some me) (set_closed true p)) cs cx n))
        by (cbn; unfold lockW; cbn; by rewrite HW).
      replace (set_waitersMu (Some me) (set_closed true p))
        with (set_waiters (Fifo.mk q) (set_waitersMu (Some me) (set_closed true p)))
        by (destruct p as [? ? ? ? ? ? [?] ? ?]; cbn in *; by subst).
      exact Hex.
    + destruct p as [? ? ? ? ? ? [?] ? ?]; cbn in *. by subst.
    + intros ch Hch. eapply Hin; [done|]. by apply Hidle.
    + done.
    + done.
    + done.
    + intros t c0 ctx ch Hch. cbn [chans ctxs].
      pose proof (Hin ch [] Hch (Hidle ch Hch)) as Hcl.
      split.
      * intros Hc0. cbn [exec thread_step]. cbn [chans]. unfold chan_recv.
        rewrite Hcl. cbn. destruct c0; done.
      * intros Hctx. cbn. by rewrite Hctx.
  - intros t c0 n w0 Hcl. cbn. rewrite Hcl. cbn. by destruct n.
  - intros t c0 ctx load w0 Hcl HR He. open_world w0. steps. rewrite Pop_nil. by steps.
  - intros es m m' Hrun Hcl. revert Hcl Hrun.
    apply (run_invariant (fun m => closed (pool (shared m)) = true)).
    intros e m0 m1 Hcl Hf. by eapply fire_closed.
Qed.

(** ** Waiters are served in order *)

Lemma idle_lt (cs : list Chan) (ch : chan) : idle cs ch -> ch < length cs.
Proof. unfold idle. eauto using lookup_lt_Some. Qed.

Lemma pool_get_Some (c : choice Item) (free rest : list chan) (ch : chan) :
  pool_get c free = Some (ch, rest) -> free ≡ₚ ch :: rest.
Proof.
  unfold pool_get. destruct c as [|i| |]; try done.
  destruct (free !! i) as [x|] eqn:Hi; [|done]. intros [= <- <-].
  by apply delete_Permutation.
Qed.

Lemma Register_quiet (me : tid) (ctx : ctx_id) (load : loader) (c : choice Item) (w : world) :
  quiet w ->
  ctxs w !! ctx = None ->
  ((MaxWaiters (pool w) <= 0)%Z
   \/ (Z.of_nat (length (Fifo.a (waiters (pool w)))) < MaxWaiters (pool w))%Z) ->
  exists ch w1,
    do_op me (Register ctx load c) w = Some (Some ch, w1)
    /\ quiet w1
    /\ Fifo.a (waiters (pool w1)) = Fifo.a (waiters (pool w)) ++ [ch]
    /\ ctxs w1 = ctxs w
    /\ MaxWaiters (pool w1) = MaxWaiters (pool w)
    /\ length (chans w) <= length (chans w1)
    /\ (forall x, x < length (chans w) -> chans w1 !! x = chans w !! x)
    /\ (forall x, x ∈ Fifo.a (waiters (pool w1)) ++ chanPool (pool w1) ->
          x ∈ Fifo.a (waiters (pool w)) ++ chanPool (pool w) \/ length (chans w) <= x).
Proof.
  intros (HR & HW & Hc & Hr & Hnd & Hidle) Hctx Hroom.
  assert ((0 <? MaxWaiters (pool w))%Z
          && (MaxWaiters (pool w) <=? Z.of_nat (length (Fifo.a (waiters (pool w)))))%Z
          = false) as Hchk.
  { apply andb_false_iff. destruct Hroom; [left; lia|right; lia]. }
  unfold quiet, do_op. open_world w. steps. rewrite Pop_nil. steps.
  rewrite Hctx, Hchk. steps.
  destruct (pool_get c chanPool0) as [[ch rest]|] eqn:Hget; steps; rewrite Hctx.
  - apply pool_get_Some in Hget.
    assert ((a0 ++ [ch]) ++ rest ≡ₚ a0 ++ chanPool0) as Hperm.
    { rewrite Hget, <- app_assoc. done. }
    exists ch.
    destruct ((MaxItems0 =? 0)%Z || (loads0 <? MaxItems0)%Z); steps;
      (eexists; split; [reflexivity|]; cbn; split_and!; try done;
       [by rewrite Hperm|by rewrite Hperm|intros x Hx; left; by rewrite <- Hperm]).
  - assert (length chans0 ∉ a0 ++ chanPool0) as Hfresh.
    { intros Hin. eapply Forall_forall in Hidle; [|done].
      apply idle_lt in Hidle. lia. }
    assert ((a0 ++ [length chans0]) ++ chanPool0 ≡ₚ length chans0 :: (a0 ++ chanPool0))
      as Hperm.
    { rewrite <- app_assoc. cbn. by rewrite <- Permutation_middle. }
    exists (length chans0).
    destruct ((MaxItems0 =? 0)%Z || (loads0 <? MaxItems0)%Z); steps;
      (eexists; split; [reflexivity|]; cbn; split_and!; try done;
       [rewrite Hperm; by apply NoDup_cons
       |rewrite Hperm; apply Forall_cons; split;
        [unfold idle; by rewrite lookup_app_r, Nat.sub_diag by lia
        |eapply Forall_impl; [done|]; intros x Hx; unfold idle in *;
         rewrite lookup_app_l; [done|]; by eapply lookup_lt_Some]
       |rewrite length_app; lia
       |intros x Hx; by rewrite lookup_app_l
       |intros x Hx; rewrite Hperm in Hx; apply elem_of_cons in Hx as [->|Hx];
        [right; lia|by left]]).
Qed.

Lemma Handoff_quiet (me : tid) (v : Item) (w : world) (ch : chan) (q : list chan) :
  quiet w ->
  Fifo.a (waiters (pool w)) = ch :: q ->
  exists w1,
    do_op me (Handoff v) w = Some (None, w1)
    /\ quiet w1
    /\ Fifo.a (waiters (pool w1)) = q
    /\ chanPool (pool w1) = chanPool (pool w)
    /\ ctxs w1 = ctxs w
    /\ MaxWaiters (pool w1) = MaxWaiters (pool w)
    /\ chans w1 = <[ch := mkChan [v] false]> (chans w).
Proof.
  intros (HR & HW & Hc & Hr & Hnd & Hidle) Hq.
  unfold quiet, do_op. open_world w.
  apply NoDup_cons in Hnd as [Hnotin Hnd].
  apply Forall_cons in Hidle as [Hch Hidle].
  steps. rewrite (chan_send_idle _ _ _ Hch). steps.
  eexists. split; [reflexivity|]. cbn. split_and!; try done.
  apply Forall_forall. intros x Hx. unfold idle.
  rewrite list_lookup_insert_ne by (by intros ->).
  by eapply Forall_forall in Hidle.
Qed.

Lemma serve_in_order (me : tid) (ops : list op) :
  forall w : world,
  quiet w ->
  balanced (length (Fifo.a (waiters (pool w)))) ops = true ->
  Forall (op_ctx_live w) ops ->
  ((MaxWaiters (pool w) <= 0)%Z
   \/ (Z.of_nat (length (Fifo.a (waiters (pool w))) + registrations ops)
       <= MaxWaiters (pool w))%Z) ->
  exists regs w',
    serve me ops w = Some (regs, w')
    /\ length regs = registrations ops
    /\ quiet w'
    /\ Fifo.a (waiters (pool w'))
       = drop (length (handed ops)) (Fifo.a (waiters (pool w)) ++ regs)
    /\ (forall n ch v,
          (Fifo.a (waiters (pool w)) ++ regs) !! n = Some ch ->
          handed ops !! n = Some v ->
          chans w' !! ch = Some (mkChan [v] false))
    /\ (forall x, x ∉ Fifo.a (waiters (pool w)) ++ chanPool (pool w) ->
          x < length (chans w) -> chans w' !! x = chans w !! x).
Proof.
  induction ops as [|[ctx load c|v] ops IH]; intros w Hq Hbal Hlive Hroom.
  - exists [], w. cbn. rewrite app_nil_r. by split_and!.
  - apply Forall_cons in Hlive as [Hctx Hlive]. cbn in Hctx, Hbal, Hroom.
    destruct (Register_quiet me ctx load c w Hq Hctx) as
      (ch & w1 & Hop & Hq1 & Hqueue & Hcx & HMW & Hlen & Hold & Hcells).
    { destruct Hroom; [by left|right; lia]. }
    destruct (IH w1 Hq1) as (regs & w' & Hserve & Hregs & Hq' & Hqueue' & Hval & Hframe).
    { by rewrite Hqueue, length_app, Nat.add_comm. }
    { eapply Forall_impl; [done|]. intros [] ?; cbn in *; congruence. }
    { rewrite HMW, Hqueue, length_app. cbn. destruct Hroom; [by left|right; lia]. }
    exists (ch :: regs), w'. cbn [serve]. rewrite Hop, Hserve. cbn.
    rewrite Hqueue, <- app_assoc in Hqueue', Hval. cbn in Hqueue', Hval.
    split_and!; try done.
    + by rewrite Hregs.
    + intros x Hx Hlt. rewrite Hframe; [by apply Hold| |lia].
      intros Hin. destruct (Hcells _ Hin); [done|lia].
  - cbn in Hbal. destruct (Fifo.a (waiters (pool w))) as [|ch q] eqn:Hqueue; [done|].
    cbn in Hbal, Hroom.
    destruct (Handoff_quiet me v w ch q Hq Hqueue) as
      (w1 & Hop & Hq1 & Hqueue1 & Hpool & Hcx & HMW & Hchans).
    destruct (IH w1 Hq1) as (regs & w' & Hserve & Hregs & Hq' & Hqueue' & Hval & Hframe).
    { by rewrite Hqueue1. }
    { eapply Forall_cons in Hlive as [_ Hlive].
      eapply Forall_impl; [done|]. intros [] ?; cbn in *; congruence. }
    { rewrite HMW, Hqueue1. destruct Hroom; [by left|right; lia]. }
    exists regs, w'. cbn [serve]. rewrite Hop, Hserve. cbn.
    rewrite Hqueue1 in Hqueue', Hval, Hframe. rewrite Hpool in Hframe.
    destruct Hq as (_ & _ & _ & _ & Hnd & Hidle). rewrite Hqueue in Hnd, Hidle.
    apply NoDup_cons in Hnd as [Hnotin _].
    apply Forall_cons in Hidle as [Hch _]. apply idle_lt in Hch as Hlt.
    split_and!; try done.
    + intros [|n] ch' v' Hch' Hv'; cbn in Hch', Hv'; simplify_eq; [|by eauto].
      rewrite Hframe; [|done|by rewrite Hchans, length_insert].
      rewrite Hchans. by apply list_lookup_insert_eq.
    + intros x Hx Hx'. apply not_elem_of_cons in Hx as [Hne Hx].
      rewrite Hframe; [|done|by rewrite Hchans, length_insert].
      rewrite Hchans. by apply list_lookup_insert_ne.
Qed.

(** How a step can change the Waiter Queue: a [Take] appends its cell at
    the tail; a [Put] or [Close] takes the head off and keeps it in hand; a
    cancelled [Take] deletes its own cell. *)
Lemma step_queue (t : tid) (c : choice Item) (k k' : pc) (w w' : world) (sp : option pc) :
  thread_step t c k w = Next k' w' sp ->
  waiters (pool w') = waiters (pool w)
  \/ (exists ctx load ch, k = TakeUnshift ctx load ch
        /\ Fifo.a (waiters (pool w')) = Fifo.a (waiters (pool w)) ++ [ch])
  \/ (exists ph v ch, k = HandoffShift ph v /\ k' = HandoffUnlock ph v (Some ch)
        /\ Fifo.a (waiters (pool w)) = ch :: Fifo.a (waiters (pool w')))
  \/ (exists ch, k = CloseShift /\ k' = CloseChan ch
        /\ Fifo.a (waiters (pool w)) = ch :: Fifo.a (waiters (pool w')))
  \/ (exists ch cause, k = CancelDelete ch cause
        /\ Fifo.a (waiters (pool w'))
           = List.filter (fun x => negb (Nat.eqb ch x)) (Fifo.a (waiters (pool w)))).
Proof.
  intros Hs. destruct k; step_cases Hs; unfold Fifo.Shift in *;
    repeat case_match; simplify_eq; cbn; eauto 12.
Qed.

(** X20.  From a quiet state (no mutex held, the list open, no ready item,
    the queued and the pooled cells distinct, open and empty) with the
    cells [q] queued, take any sequence of registrations and handoffs, each
    run alone before the next, in which every handoff finds a waiter (and
    which respects [MaxWaiters], with live contexts).  Every operation of
    the sequence runs to its end: each registration puts its cell at the
    tail of the Waiter Queue and each handoff takes the head off and writes
    its value there.  So, with [regs] the cells registered in order, the
    [n]-th cell of [q ++ regs] ends up holding exactly the value of the
    [n]-th handoff, and the cells left on the queue are [q ++ regs] without
    its first as many cells as there were handoffs.  And in every execution
    a step changes the Waiter Queue in one of four ways only: a [Take]
    appends its cell at the tail, a [Put] takes the head off to write its
    value there, [Close] takes the head off to close it, a cancelled [Take]
    deletes its own cell. *)
Theorem waiters_served_fifo (me : tid) (ops : list op) (w : world) :
  quiet w ->
  balanced (length (Fifo.a (waiters (pool w)))) ops = true ->
  Forall (op_ctx_live w) ops ->
  ((MaxWaiters (pool w) <= 0)%Z
   \/ (Z.of_nat (length (Fifo.a (waiters (pool w))) + registrations ops)
       <= MaxWaiters (pool w))%Z) ->
  (exists regs w',
    serve me ops w = Some (regs, w')
    /\ length regs = registrations ops
    /\ Fifo.a (waiters (pool w'))
       = drop (length (handed ops)) (Fifo.a (waiters (pool w)) ++ regs)
    /\ (forall n ch v,
          (Fifo.a (waiters (pool w)) ++ regs) !! n = Some ch ->
          handed ops !! n = Some v ->
          chans w' !! ch = Some (mkChan [v] false)))
  /\ (forall t c k w0 k' w' sp,
        thread_step t c k w0 = Next k' w' sp ->
        waiters (pool w') = waiters (pool w0)
        \/ (exists ctx load ch, k = TakeUnshift ctx load ch
              /\ Fifo.a (waiters (pool w')) = Fifo.a (waiters (pool w0)) ++ [ch])
        \/ (exists ph v ch, k = HandoffShift ph v /\ k' = HandoffUnlock ph v (Some ch)
              /\ Fifo.a (waiters (pool w0)) = ch :: Fifo.a (waiters (pool w'))
              /\ thread_step t c k' w' = Next (HandoffSend ph v ch) (unlockW w') None
              /\ forall t1 c1 w1, idle (chans w1) ch ->
                   exists k1,
                     thread_step t1 c1 (HandoffSend ph v ch) w1
                     = Next k1 (set_chans (<[ch := mkChan [v] false]> (chans w1)) w1) None)
        \/ (exists ch, k = CloseShift /\ k' = CloseChan ch
              /\ Fifo.a (waiters (pool w0)) = ch :: Fifo.a (waiters (pool w')))
        \/ (exists ch cause, k = CancelDelete ch cause
              /\ Fifo.a (waiters (pool w'))
                 = List.filter (fun x => negb (Nat.eqb ch x)) (Fifo.a (waiters (pool w0))))).
Proof.
  intros Hq Hbal Hlive Hroom. split.
  - destruct (serve_in_order me ops w Hq Hbal Hlive Hroom)
      as (regs & w' & ? & ? & _ & ? & ? & _).
    eauto 10.
  - intros t c k w0 k' w' sp Hs.
    destruct (step_queue _ _ _ _ _ _ _ Hs) as
      [?|[?|[(ph & v & ch & -> & -> & Hh)|[?|?]]]]; eauto.
    right; right; left. exists ph, v, ch. split_and!; try done.
    intros t1 c1 w1 Hidle. cbn. rewrite (chan_send_idle _ _ _ Hidle). eauto.
Qed.

(** ** Steady operation *)

Lemma idle_insert_other (cs : list Chan) (l : list chan) (ch : chan) (x : Chan) :
  Forall (idle cs) l -> ch ∉ l -> Forall (idle (<[ch := x]> cs)) l.
Proof.
  intros Hidle Hnotin. apply Forall_forall. intros y Hy. unfold idle.
  rewrite list_lookup_insert_ne by (by intros ->).
  by eapply Forall_forall in Hidle.
Qed.

(** A step in steady operation keeps the cells in order and does not panic.
    [rest] stands for the cells the other goroutines have in hand. *)
Lemma step_steady (t : tid) (c : choice Item) (k : pc) (w : world) (rest : list chan) :
  calm k = true ->
  ctxs w = ∅ ->
  closed (pool w) = false ->
  NoDup (Fifo.a (waiters (pool w)) ++ chanPool (pool w) ++ held k ++ rest) ->
  Forall (idle (chans w)) (Fifo.a (waiters (pool w)) ++ chanPool (pool w) ++ held k ++ rest) ->
  Forall (fun c => length (buf c) <= chan_cap /\ chclosed c = false) (chans w) ->
  match thread_step t c k w with
  | Blocked => True
  | Crash _ => False
  | Next k' w' sp =>
      calm k' = true
      /\ (forall k0, sp = Some k0 -> calm k0 = true /\ held k0 = [])
      /\ ctxs w' = ∅
      /\ closed (pool w') = false
      /\ NoDup (Fifo.a (waiters (pool w')) ++ chanPool (pool w') ++ held k' ++ rest)
      /\ Forall (idle (chans w'))
           (Fifo.a (waiters (pool w')) ++ chanPool (pool w') ++ held k' ++ rest)
      /\ Forall (fun c => length (buf c) <= chan_cap /\ chclosed c = false) (chans w')
  end.
Proof.
  intros Hcalm Hcx Hcl Hnd Hidle Hcap.
  destruct k; try discriminate Hcalm; cbn; unfold lockR, lockW, goto;
    rewrite ?Hcx, ?lookup_empty;
    try (repeat case_match; simplify_eq; cbn in *; try done;
         split_and!; (done || by intros ? [= <-])).
  - (* TakeGetChan *)
    cbn in Hnd, Hidle.
    destruct (pool_get c (chanPool (pool w))) as [[ch rest0]|] eqn:Hget; cbn.
    + apply pool_get_Some in Hget.
      assert (Fifo.a (waiters (pool w)) ++ rest0 ++ ch :: rest
              ≡ₚ Fifo.a (waiters (pool w)) ++ chanPool (pool w) ++ rest) as Hperm.
      { rewrite Hget. solve_Permutation. }
      split_and!; try done. all: by rewrite Hperm.
    + assert (length (chans w)
              ∉ Fifo.a (waiters (pool w)) ++ chanPool (pool w) ++ rest) as Hfresh.
      { intros Hin. eapply Forall_forall in Hidle; [|done].
        apply idle_lt in Hidle. lia. }
      assert (Fifo.a (waiters (pool w)) ++ chanPool (pool w) ++ length (chans w) :: rest
              ≡ₚ length (chans w)
                 :: Fifo.a (waiters (pool w)) ++ chanPool (pool w) ++ rest) as Hperm.
      { solve_Permutation. }
      split_and!; try done.
      * rewrite Hperm. by apply NoDup_cons.
      * rewrite Hperm. apply Forall_cons. split.
        -- unfold idle. by rewrite lookup_app_r, Nat.sub_diag by lia.
        -- eapply Forall_impl; [done|]. intros x Hx. unfold idle in *.
           rewrite lookup_app_l; [done|]. by eapply lookup_lt_Some.
      * apply Forall_app. split; [done|]. by repeat constructor.
  - (* TakeUnshift *)
    cbn in Hnd, Hidle.
    assert ((Fifo.a (waiters (pool w)) ++ [ch]) ++ chanPool (pool w) ++ rest
            ≡ₚ Fifo.a (waiters (pool w)) ++ chanPool (pool w) ++ ch :: rest) as Hperm.
    { solve_Permutation. }
    split_and!; try done. all: by rewrite Hperm.
  - (* TakeSelect *)
    cbn in Hnd, Hidle.
    assert (match chan_recv ch (chans w) with
            | Some (r, cs) =>
                (ch ∉ Fifo.a (waiters (pool w)) ++ chanPool (pool w) ++ rest)
                /\ cs = <[ch := make_chan]> (chans w) /\ ch < length (chans w)
            | None => True
            end) as Hrecv.
    { unfold chan_recv. destruct (chans w !! ch) as [c1|] eqn:Hch; [|done].
      eapply Forall_lookup_1 in Hcap as [Hlen Hopen]; [|done].
      destruct c1 as [[|v r] cl]; cbn in *; subst; [done|].
      split_and!.
      - intros Hin. eapply Forall_forall in Hidle; [|done].
        unfold idle, make_chan in Hidle. congruence.
      - destruct r; [done|cbn in Hlen; unfold chan_cap in Hlen; lia].
      - by eapply lookup_lt_Some. }
    assert (match chan_recv ch (chans w) with
            | Some (r, cs) => Next (TakeRecvd ch r) (set_chans cs w) None
            | None => Blocked
            end
            = match chan_recv ch (chans w) with
              | Some (r, cs) =>
                  Next (TakeRecvd ch r) (set_chans (<[ch := make_chan]> (chans w)) w) None
              | None => Blocked
              end) as ->.
    { destruct (chan_recv ch (chans w)) as [[r cs]|]; [|done].
      by destruct Hrecv as (_ & -> & _). }
    assert (match chan_recv ch (chans w) with
            | Some _ => (ch ∉ Fifo.a (waiters (pool w)) ++ chanPool (pool w) ++ rest)
                        /\ ch < length (chans w)
            | None => True
            end) as Hrecv'.
    { destruct (chan_recv ch (chans w)) as [[r cs]|]; [|done]. by destruct Hrecv as (? & _ & ?). }
    clear Hrecv.
    assert (Fifo.a (waiters (pool w)) ++ chanPool (pool w) ++ ch :: rest
            ≡ₚ ch :: Fifo.a (waiters (pool w)) ++ chanPool (pool w) ++ rest) as Hperm.
    { solve_Permutation. }
    destruct c; try done; destruct (chan_recv ch (chans w)) as [[r cs]|]; try done; cbn;
      destruct Hrecv' as [Hnotin Hlt];
      (split_and!; try done;
       [rewrite Hperm; by apply NoDup_cons
       |rewrite Hperm; apply Forall_cons; split;
        [unfold idle; by apply list_lookup_insert_eq|by apply idle_insert_other]
       |apply Forall_insert; [done|cbn; unfold chan_cap; split; [lia|done]]]).
  - (* TakeRecvd *)
    cbn in Hnd, Hidle.
    assert (Fifo.a (waiters (pool w)) ++ ch :: chanPool (pool w) ++ rest
            ≡ₚ Fifo.a (waiters (pool w)) ++ chanPool (pool w) ++ ch :: rest) as Hperm.
    { solve_Permutation. }
    split_and!; try done. all: by rewrite Hperm.
  - (* HandoffShift *)
    cbn in Hnd, Hidle. unfold Fifo.Shift.
    destruct (Fifo.a (waiters (pool w))) as [|ch q] eqn:Hq; cbn.
    + rewrite Hq. by split_and!.
    + assert (q ++ chanPool (pool w) ++ ch :: rest
              ≡ₚ (ch :: q) ++ chanPool (pool w) ++ rest) as Hperm.
      { solve_Permutation. }
      split_and!; try done. all: by rewrite Hperm.
  - (* HandoffSend *)
    cbn in Hnd, Hidle.
    assert (Fifo.a (waiters (pool w)) ++ chanPool (pool w) ++ ch :: rest
            ≡ₚ ch :: Fifo.a (waiters (pool w)) ++ chanPool (pool w) ++ rest) as Hperm.
    { solve_Permutation. }
    rewrite Hperm in Hnd, Hidle.
    apply NoDup_cons in Hnd as [Hnotin Hnd]. apply Forall_cons in Hidle as [Hch Hidle].
    rewrite (chan_send_idle _ _ _ Hch). cbn.
    split_and!; try done.
    + by destruct ph.
    + by destruct ph.
    + destruct ph; by apply idle_insert_other.
    + apply Forall_insert; [done|]. cbn. unfold chan_cap. split; [lia|done].
Qed.

Lemma held_insert (l : list pc) (t : tid) (k : pc) :
  l !! t = Some k ->
  exists rest,
    concat (held <$> l) ≡ₚ held k ++ rest
    /\ forall k', concat (held <$> <[t := k']> l) ≡ₚ held k' ++ rest.
Proof.
  revert t. induction l as [|x l IH]; intros [|t] H; simplify_eq/=.
  - by exists (concat (held <$> l)).
  - destruct (IH _ H) as (rest & Hold & Hnew). exists (held x ++ rest). split.
    + rewrite Hold. solve_Permutation.
    + intros k'. unfold insert in *. rewrite (Hnew k'). solve_Permutation.
Qed.

Lemma run_invariant_on (Q : event -> Prop) (P : machine -> Prop) :
  (forall e m m', Q e -> P m -> fire e m = Some m' -> P m') ->
  forall es m m', Forall Q es -> P m -> run es m = Some m' -> P m'.
Proof.
  intros Hstep es. induction es as [|e es IH]; intros m m' HQ HP Hrun; cbn in Hrun.
  - by simplify_eq.
  - apply Forall_cons in HQ as [He HQ].
    destruct (fire e m) as [m1|] eqn:Hf; [|done]. eauto.
Qed.

Lemma fire_steady (e : event) (m m' : machine) :
  steady_event e = true -> steady m -> fire e m = Some m' -> steady m'.
Proof.
  intros He (Hcr & Hcx & Hcl & Hcalm & Hnd & Hidle & Hcap) Hf.
  unfold steady, cells in *. unfold fire in Hf. rewrite Hcr in Hf.
  destruct e as [cl|ctx n|t c]; [|done|].
  - simplify_eq. cbn. rewrite fmap_app, concat_app. cbn.
    assert (calm (entry cl) = true /\ held (entry cl) = []) as [Hc ->]
      by (by destruct cl).
    rewrite !app_nil_r. split_and!; try done.
    apply Forall_app. split; [done|]. by repeat constructor.
  - destruct (threads m !! t) as [k|] eqn:Hk; [|done].
    destruct (held_insert _ _ _ Hk) as (rest & Hold & Hnew).
    rewrite Hold in Hnd, Hidle.
    pose proof (step_steady t c k (shared m) rest
                  (proj1 (Forall_lookup _ _) Hcalm _ _ Hk) Hcx Hcl Hnd Hidle Hcap) as Hs.
    destruct (thread_step t c k (shared m)) as [|pe|k' w' sp]; [done|done|].
    destruct Hs as (Hc' & Hsp & Hcx' & Hcl' & Hnd' & Hidle' & Hcap').
    simplify_eq. cbn.
    assert (concat (held <$> <[t := k']> (threads m) ++ option_list sp)
            ≡ₚ held k' ++ rest) as Hperm.
    { rewrite fmap_app, concat_app, (Hnew k').
      destruct sp as [k0|]; cbn; [|by rewrite !app_nil_r].
      destruct (Hsp k0 eq_refl) as [_ ->]. cbn. by rewrite !app_nil_r. }
    rewrite Hperm. split_and!; try done.
    apply Forall_app. split.
    + by apply Forall_insert.
    + destruct sp as [k0|]; cbn; [|done].
      destruct (Hsp k0 eq_refl) as [? _]. by repeat constructor.
Qed.

(** X19.  In steady operation, that is, as long as no context is cancelled
    and [Close] is not called, the program does not panic, and the cells on
    the Waiter Queue, on the free-list and in the hands of the goroutines
    are distinct, open and empty: a [Put] that takes a cell off the queue
    finds room in it. *)
Theorem steady_operation_is_safe (mi mw : Z) (es : list event) (m : machine) :
  Forall (fun e => steady_event e = true) es ->
  run es (boot mi mw) = Some m ->
  steady m.
Proof.
  intros Hes. apply (run_invariant_on (fun e => steady_event e = true) steady); [|done|].
  - intros e m0 m1. apply fire_steady.
  - unfold steady, cells. cbn. split_and!; try done; constructor.
Qed.

(** ** Cancellation of a waiting Take *)

(** X18.  [handleCancel] and the end of [Take] (from line 233 on), run
    alone while no other goroutine holds [waitersMu]: the cell is deleted
    from the Waiter Queue and put on the free-list; a value found in the
    cell is returned with a nil error; an open empty cell gives the
    cancellation cause; a closed empty cell gives the zero value with a nil
    error. *)
Lemma cancel_path (me : tid) (c : choice Item) (ch : chan) (cause : error) (w : world) :
  waitersMu (pool w) = None ->
  let p' := set_chanPool (ch :: chanPool (pool w))
              (set_waiters (Fifo.DeleteFunc (fun wch => Nat.eqb ch wch) (waiters (pool w)))
                 (pool w)) in
  (forall v rest cl, chans w !! ch = Some (mkChan (v :: rest) cl) ->
     exec me c 5 (CancelLock ch cause) w
     = Ended (Done (RetTake v None))
         (set_chans (<[ch := mkChan rest cl]> (chans w)) (with_pool p' w)) [])
  /\ (chans w !! ch = Some (mkChan [] false) ->
     exec me c 5 (CancelLock ch cause) w
     = Ended (Done (RetTake zero (Some cause))) (with_pool p' w) [])
  /\ (chans w !! ch = Some (mkChan [] true) ->
     exec me c 5 (CancelLock ch cause) w
     = Ended (Done (RetTake zero None)) (with_pool p' w) []).
Proof.
  intros HW p'. subst p'. split_and!.
  - intros v rest cl Hch. open_world w. steps. unfold chan_recv. rewrite Hch. by steps.
  - intros Hch. open_world w. steps. unfold chan_recv. rewrite Hch. by steps.
  - intros Hch. open_world w. steps. unfold chan_recv. rewrite Hch. by steps.
Qed.

(** * More of the code *)

(** ** Package queue *)

Lemma Shift_None {E} (q : Fifo.t E) : Fifo.Shift q = None <-> Fifo.Len q = 0.
Proof. destruct q as [[|x l]]; cbn; split; done. Qed.

(** X1.  Whatever the order in which a caller mixes [Unshift] and [Shift]
    on a [Fifo], the values that the [Shift] calls return, followed by the
    values left in the queue, are the values that were in the queue at the
    start followed by the values given to [Unshift], in that order; there
    is one result per [Shift]; and [Shift] reports [ok = false] exactly when
    [Len] is 0. *)
Theorem Fifo_first_in_first_out {E} (ops : list (fifo_op E)) (q : Fifo.t E) :
  omap id (fifo_run ops q).1 ++ Fifo.a (fifo_run ops q).2 = Fifo.a q ++ unshifted ops
  /\ length (fifo_run ops q).1 = length (List.filter (fun o => match o with DoShift => true | _ => false end) ops)
  /\ (forall q0 : Fifo.t E, Fifo.Shift q0 = None <-> Fifo.Len q0 = 0).
Proof.
  split; [|split; [|apply Shift_None]].
  - revert q. induction ops as [|[v|] ops IH]; intros q; cbn.
    + by rewrite app_nil_r.
    + rewrite IH. cbn. by rewrite <- app_assoc.
    + destruct q as [[|x l]]; cbn.
      * specialize (IH (Fifo.mk [])).
        destruct (fifo_run ops (Fifo.mk [])) as [rs q']. cbn in *. done.
      * specialize (IH (Fifo.mk l)).
        destruct (fifo_run ops (Fifo.mk l)) as [rs q']. cbn in *. by rewrite IH.
  - revert q. induction ops as [|[v|] ops IH]; intros q; cbn; [done|apply IH|].
    destruct (Fifo.Shift q) as [[v q']|].
    + specialize (IH q'). destruct (fifo_run ops q'). cbn in *. by rewrite IH.
    + specialize (IH q). destruct (fifo_run ops q). cbn in *. by rewrite IH.
Qed.

Lemma push_all_a {E} (vs : list E) (q : Lifo.t E) :
  Lifo.a (push_all vs q) = Lifo.a q ++ vs.
Proof.
  revert q. induction vs as [|v vs IH]; intros q; cbn.
  - by rewrite app_nil_r.
  - unfold push_all in IH. rewrite IH. cbn. by rewrite <- app_assoc.
Qed.

Lemma Pop_mk_snoc {E} (xs : list E) (x : E) :
  Lifo.Pop (Lifo.mk (xs ++ [x])) = Some (x, Lifo.mk xs).
Proof.
  unfold Lifo.Pop; cbn [Lifo.a].
  by rewrite last_snoc, removelast_last.
Qed.

Lemma Pop_None {E} (q : Lifo.t E) : Lifo.Pop q = None <-> Lifo.Len q = 0.
Proof.
  destruct q as [l]. unfold Lifo.Pop, Lifo.Len. cbn.
  destruct l as [|x l _] using rev_ind; [done|].
  rewrite last_snoc, length_app. cbn. split; [done|lia].
Qed.

(** X2.  A [Lifo] gives back what was pushed last first: after [Push] of
    the values [vs], in order, [length vs] calls of [Pop] return [vs] in
    reverse and leave the stack exactly as it was before the pushes.  [Len]
    counts the pushes, and [Pop] reports [ok = false] exactly when [Len] is
    0. *)
Theorem Lifo_last_in_first_out {E} (vs : list E) (q : Lifo.t E) :
  pop_n (length vs) (push_all vs q) = (reverse vs, q)
  /\ Lifo.Len (push_all vs q) = Lifo.Len q + length vs
  /\ (forall q0 : Lifo.t E, Lifo.Pop q0 = None <-> Lifo.Len q0 = 0).
Proof.
  split; [|split; [|apply Pop_None]].
  - revert q. induction vs as [|v vs IH] using rev_ind; intros q; [done|].
    rewrite length_app, Nat.add_comm, reverse_snoc. cbn.
    unfold push_all. rewrite foldl_snoc. fold (push_all vs q).
    destruct (push_all vs q) as [l] eqn:Hp. unfold Lifo.Push. cbn [Lifo.a].
    rewrite Pop_mk_snoc, <- Hp, IH. done.
  - unfold Lifo.Len. by rewrite push_all_a, length_app.
Qed.

(** X3.  [Fifo.DeleteFunc] keeps exactly the values on which [f] is false,
    in their order: deleting commutes with [Unshift]; a queue whose only
    value with [f] true is [x] loses just that one, so [Len] goes down by
    one; nothing is deleted when [f] is false on every value; and the
    [Shift] that follows returns the oldest value on which [f] is false. *)
Theorem Fifo_DeleteFunc_keeps_the_rest {E} (f : E -> bool) (q : Fifo.t E) :
  (forall x, x ∈ Fifo.a (Fifo.DeleteFunc f q) <-> x ∈ Fifo.a q /\ f x = false)
  /\ (forall v, Fifo.DeleteFunc f (Fifo.Unshift v q)
                = if f v then Fifo.DeleteFunc f q
                  else Fifo.Unshift v (Fifo.DeleteFunc f q))
  /\ (forall l1 x l2, Fifo.a q = l1 ++ x :: l2 -> f x = true ->
        Forall (fun y => f y = false) (l1 ++ l2) ->
        Fifo.DeleteFunc f q = Fifo.mk (l1 ++ l2)
        /\ Fifo.Len q = S (Fifo.Len (Fifo.DeleteFunc f q)))
  /\ (Forall (fun y => f y = false) (Fifo.a q) -> Fifo.DeleteFunc f q = q)
  /\ (forall l1 x l2, Fifo.a q = l1 ++ x :: l2 -> f x = false ->
        Forall (fun y => f y = true) l1 ->
        Fifo.Shift (Fifo.DeleteFunc f q) = Some (x, Fifo.DeleteFunc f (Fifo.mk l2))).
Proof.
  assert (forall l : list E, Forall (fun y => f y = false) l ->
            List.filter (fun x => negb (f x)) l = l) as Hkeep.
  { induction 1 as [|y l Hy _ IH]; cbn; [done|]. by rewrite Hy, IH. }
  assert (forall l : list E, Forall (fun y => f y = true) l ->
            List.filter (fun x => negb (f x)) l = []) as Hdrop.
  { induction 1 as [|y l Hy _ IH]; cbn; [done|]. by rewrite Hy, IH. }
  destruct q as [l]. unfold Fifo.DeleteFunc, Fifo.Unshift, Fifo.Len, Fifo.Shift. cbn.
  split_and!.
  - intros x. rewrite !list_elem_of_In, List.filter_In, negb_true_iff. done.
  - intros v. rewrite List.filter_app. cbn. destruct (f v); cbn; [|done].
    by rewrite app_nil_r.
  - intros l1 x l2 -> Hx Hrest. apply Forall_app in Hrest as [H1 H2].
    rewrite List.filter_app. cbn. rewrite Hx. cbn. rewrite !Hkeep by done.
    split; [done|]. rewrite !length_app. cbn. lia.
  - intros Hl. by rewrite Hkeep.
  - intros l1 x l2 -> Hx H1. rewrite List.filter_app. cbn.
    rewrite Hx, Hdrop by done. done.
Qed.

(** X4.  [Lifo.DeleteFunc] keeps exactly the values on which [f] is false,
    in their order, so the [Pop] that follows returns the value pushed last
    among those on which [f] is false, and deleting commutes with
    [Push]. *)
Theorem Lifo_DeleteFunc_keeps_the_rest {E} (f : E -> bool) (q : Lifo.t E) :
  (forall x, x ∈ Lifo.a (Lifo.DeleteFunc f q) <-> x ∈ Lifo.a q /\ f x = false)
  /\ (forall v, Lifo.DeleteFunc f (Lifo.Push v q)
                = if f v then Lifo.DeleteFunc f q
                  else Lifo.Push v (Lifo.DeleteFunc f q))
  /\ (forall l1 x l2, Lifo.a q = l1 ++ x :: l2 -> f x = false ->
        Forall (fun y => f y = true) l2 ->
        Lifo.Pop (Lifo.DeleteFunc f q) = Some (x, Lifo.DeleteFunc f (Lifo.mk l1)))
  /\ Lifo.Len (Lifo.DeleteFunc f q) <= Lifo.Len q.
Proof.
  assert (forall l : list E, Forall (fun y => f y = true) l ->
            List.filter (fun x => negb (f x)) l = []) as Hdrop.
  { induction 1 as [|y l Hy _ IH]; cbn; [done|]. by rewrite Hy, IH. }
  destruct q as [l]. unfold Lifo.DeleteFunc, Lifo.Push, Lifo.Len. cbn.
  split_and!.
  - intros x. rewrite !list_elem_of_In, List.filter_In, negb_true_iff. done.
  - intros v. rewrite List.filter_app. cbn. destruct (f v); cbn; [|done].
    by rewrite app_nil_r.
  - intros l1 x l2 -> Hx H2. rewrite List.filter_app. cbn.
    rewrite Hx, (Hdrop l2) by done. cbn. rewrite app_nil_r || idtac. apply Pop_mk_snoc.
  - apply List.filter_length_le.
Qed.

(** ** Take without a ready item *)

(** X5.  A [Take] that finds the Ready Stack empty on an open list and its
    context already cancelled returns the zero value and the cancellation
    cause after five steps, and leaves the whole state as it was: no cell
    is queued, [loads] is untouched, no goroutine is started. *)
Theorem Take_cancelled_before_waiting (me : tid) (c : choice Item) (ctx : ctx_id)
    (load : loader) (cause : error) (w : world) :
  readyMu (pool w) = None ->
  Lifo.a (ready (pool w)) = [] ->
  closed (pool w) = false ->
  ctxs w !! ctx = Some cause ->
  exec me c 5 (TakeLockReady ctx load) w
  = Ended (Done (RetTake zero (Some cause))) w [].
Proof.
  intros HR Hr Hc Hctx. open_world w. steps. rewrite Pop_nil. steps.
  rewrite Hctx. by steps.
Qed.

(** X6.  A [Take] that finds the Ready Stack empty on an open list, its
    context live and room on the Waiter Queue ([MaxWaiters <= 0], or fewer
    than [MaxWaiters] waiters) reaches its [select] after eleven steps with
    both mutexes released and its cell at the tail of the Waiter Queue.  The
    cell is the pooled one that [sync.Pool] hands out, taken off the
    free-list, or else a new open and empty one.  [loads] goes up by one and
    one goroutine that will call [load] is started exactly when [MaxItems]
    is 0 or [loads < MaxItems]; otherwise nothing is constructed. *)
Theorem Take_registers (me : tid) (ctx : ctx_id) (load : loader) (w : world) :
  readyMu (pool w) = None ->
  waitersMu (pool w) = None ->
  Lifo.a (ready (pool w)) = [] ->
  closed (pool w) = false ->
  ctxs w !! ctx = None ->
  ((MaxWaiters (pool w) <= 0)%Z
   \/ (Z.of_nat (Fifo.Len (waiters (pool w))) < MaxWaiters (pool w))%Z) ->
  (forall i ch, chanPool (pool w) !! i = Some ch ->
     exec me (Pooled i) 11 (TakeLockReady ctx load) w
     = Ended (TakeSelect ctx ch)
         (with_pool (set_chanPool (delete i (chanPool (pool w))) (registered ch (pool w))) w)
         (started load (pool w)))
  /\ (forall c, pool_get c (chanPool (pool w)) = None ->
     exec me c 11 (TakeLockReady ctx load) w
     = Ended (TakeSelect ctx (length (chans w)))
         (set_chans (chans w ++ [make_chan])
            (with_pool (registered (length (chans w)) (pool w)) w))
         (started load (pool w))).
Proof.
  intros HR HW Hr Hc Hctx Hroom.
  assert ((0 <? MaxWaiters (pool w))%Z
          && (MaxWaiters (pool w) <=? Z.of_nat (Fifo.Len (waiters (pool w))))%Z
          = false) as Hchk.
  { apply andb_false_iff. destruct Hroom; [left; lia|right; lia]. }
  unfold registered, started. split.
  - intros i ch Hi. open_world w. steps. rewrite Pop_nil. steps.
    rewrite Hctx, Hchk. steps. unfold pool_get. rewrite Hi. steps. rewrite Hctx.
    destruct (orb _ _); by steps.
  - intros c Hget. open_world w. steps. rewrite Pop_nil. steps.
    rewrite Hctx, Hchk. steps. rewrite Hget. steps. rewrite Hctx.
    destruct (orb _ _); by steps.
Qed.

(** X7.  A waiter whose cell holds a value returns that value with a nil
    error, whichever case its [select] takes: the receive case in two steps,
    and, when its context is cancelled, the cancellation case through
    [handleCancel] in six (run while no other goroutine holds [waitersMu]).
    Either way the value is taken out of the cell and the cell is put on
    the free-list; on the cancellation path the cell is also deleted from
    the Waiter Queue.  Whether the list is closed plays no part. *)
Theorem delivered_value_is_returned (me : tid) (ctx : ctx_id) (ch : chan)
    (v : Item) (rest : list Item) (cl : bool) (w : world) :
  chans w !! ch = Some (mkChan (v :: rest) cl) ->
  exec me Auto 2 (TakeSelect ctx ch) w
  = Ended (Done (RetTake v None))
      (pool_put ch (set_chans (<[ch := mkChan rest cl]> (chans w)) w)) []
  /\ (forall cause, ctxs w !! ctx = Some cause -> waitersMu (pool w) = None ->
      exec me CtxDone 6 (TakeSelect ctx ch) w
      = Ended (Done (RetTake v None))
          (pool_put ch
             (set_chans (<[ch := mkChan rest cl]> (chans w))
                (with_pool
                   (set_waiters
                      (Fifo.DeleteFunc (fun wch => Nat.eqb ch wch) (waiters (pool w)))
                      (pool w)) w))) []).
Proof.
  intros Hch. split.
  - open_world w. steps. unfold chan_recv. rewrite Hch. by steps.
  - intros cause Hctx HW. open_world w. steps. rewrite Hctx. steps.
    unfold chan_recv. rewrite Hch. by steps.
Qed.

Lemma snoc_lookup {A} (l : list A) (x : A) : (l ++ [x]) !! length l = Some x.
Proof. by rewrite lookup_app_r, Nat.sub_diag by lia. Qed.

Lemma snoc_insert {A} (l : list A) (x y : A) : <[length l := y]> (l ++ [x]) = l ++ [y].
Proof. by rewrite insert_app_r_alt, Nat.sub_diag by lia. Qed.

(** X8.  Lazy construction, from end to end.  On an open list without
    ready items and without waiters, with the construction budget not used
    up, a [Take] queues a new cell and starts a goroutine; that goroutine
    calls [load] once and hands the result to [Put], which writes it into
    the cell; the [Take] then returns that value (the zero value when
    [load] is nil) with a nil error.  Afterwards [loads] and the count of
    [load] calls are one more, the cell is on the free-list, open and
    empty, and everything else is as before. *)
Theorem Take_constructs_on_demand (me g : tid) (ctx : ctx_id) (load : loader)
    (v : Item) (w : world) :
  readyMu (pool w) = None ->
  waitersMu (pool w) = None ->
  Lifo.a (ready (pool w)) = [] ->
  Fifo.a (waiters (pool w)) = [] ->
  closed (pool w) = false ->
  ctxs w !! ctx = None ->
  (MaxItems (pool w) = 0 \/ loads (pool w) < MaxItems (pool w))%Z ->
  let ch := length (chans w) in
  let p1 := set_loads (int_wrap (loads (pool w) + 1)) (pool w) in
  let w1 := mkWorld (set_waiters (Fifo.mk [ch]) p1) (chans w ++ [make_chan])
              (ctxs w) (calls w) in
  let w2 := mkWorld p1 (chans w ++ [mkChan [loaded load v] false])
              (ctxs w) (S (calls w)) in
  exec me Auto 11 (TakeLockReady ctx load) w = Ended (TakeSelect ctx ch) w1 [GoLoad load]
  /\ exec g (Loaded v) 6 (GoLoad load) w1 = Ended (Done (RetPut true)) w2 []
  /\ exec me Auto 2 (TakeSelect ctx ch) w2
     = Ended (Done (RetTake (loaded load v) None))
         (mkWorld (set_chanPool (ch :: chanPool (pool w)) p1)
            (chans w ++ [make_chan]) (ctxs w) (S (calls w))) [].
Proof.
  intros HR HW Hr Hq Hc Hctx Hcap.
  assert ((MaxItems (pool w) =? 0)%Z || (loads (pool w) <? MaxItems (pool w))%Z = true)
    as Hb by (apply orb_true_iff; destruct Hcap; [left|right]; lia).
  assert ((0 <? MaxWaiters (pool w))%Z && (MaxWaiters (pool w) <=? 0)%Z = false)
    as Hchk by (apply andb_false_iff; lia).
  open_world w. split_and!.
  - steps. rewrite Pop_nil. steps. rewrite Hctx.
    change (Z.of_nat (@length chan [])) with 0%Z. rewrite Hchk. steps.
    unfold pool_get. steps. rewrite ?Hctx, Hb. by steps.
  - destruct load; steps; unfold chan_send; rewrite snoc_lookup; cbn;
      rewrite snoc_insert; by steps.
  - destruct load; steps; unfold chan_recv; rewrite snoc_lookup; cbn;
      rewrite snoc_insert; by steps.
Qed.

(** X9.  A waiter that gives up.  A [Take] that has queued a new cell and
    whose context is then cancelled with any cause returns the zero value
    and that cause (run while no other goroutine holds [waitersMu],
    the cell still empty).  Its cell has left the Waiter Queue, which is as
    it was before the call, and is on the free-list.  The construction
    budget is not given back: if the call raised [loads], [loads] stays
    raised. *)
Theorem Take_cancelled_while_waiting (me : tid) (ctx : ctx_id) (load : loader)
    (cause : error) (w : world) :
  readyMu (pool w) = None ->
  waitersMu (pool w) = None ->
  Lifo.a (ready (pool w)) = [] ->
  closed (pool w) = false ->
  ctxs w !! ctx = None ->
  ((MaxWaiters (pool w) <= 0)%Z
   \/ (Z.of_nat (Fifo.Len (waiters (pool w))) < MaxWaiters (pool w))%Z) ->
  Forall (fun ch => ch < length (chans w)) (Fifo.a (waiters (pool w))) ->
  let ch := length (chans w) in
  let w1 := mkWorld (registered ch (pool w)) (chans w ++ [make_chan])
              (ctxs w) (calls w) in
  exec me Auto 11 (TakeLockReady ctx load) w
  = Ended (TakeSelect ctx ch) w1 (started load (pool w))
  /\ exec me CtxDone 6 (TakeSelect ctx ch) (cancel ctx cause w1)
     = Ended (Done (RetTake zero (Some cause)))
         (mkWorld
            (set_chanPool (ch :: chanPool (pool w))
               (set_waiters (waiters (pool w)) (registered ch (pool w))))
            (chans w ++ [make_chan]) (<[ctx := cause]> (ctxs w)) (calls w)) [].
Proof.
  intros HR HW Hr Hc Hctx Hroom Hold.
  assert ((0 <? MaxWaiters (pool w))%Z
          && (MaxWaiters (pool w) <=? Z.of_nat (Fifo.Len (waiters (pool w))))%Z
          = false) as Hchk.
  { apply andb_false_iff. destruct Hroom; [left; lia|right; lia]. }
  assert (List.filter (fun x => negb (length (chans w) =? x))
            (Fifo.a (waiters (pool w)) ++ [length (chans w)])
          = Fifo.a (waiters (pool w))) as Hfilter.
  { rewrite List.filter_app. cbn. rewrite Nat.eqb_refl. cbn. rewrite app_nil_r.
    induction Hold as [|x l Hx _ IH]; cbn; [done|].
    rewrite IH. by destruct (Nat.eqb_spec (length (chans w)) x); [lia|]. }
  unfold registered, started, cancel. open_world w.
  split.
  - steps. rewrite Pop_nil. steps. rewrite Hctx, Hchk. steps.
    unfold pool_get. steps. rewrite ?Hctx.
    destruct (orb _ _); by steps.
  - destruct (orb _ _); rewrite Hctx; steps;
      rewrite lookup_insert_eq; steps; unfold chan_recv; rewrite snoc_lookup; cbn.
    all: repeat f_equal; exact Hfilter.
Qed.

(** ** One call after the other *)

(** A call that has returned has returned, however many more steps it is
    given. *)
Lemma exec_returned (me : tid) (c : choice Item) (n : nat) :
  forall (m : nat) (k : pc) (w w' : world) (r : result) (sp : list pc),
  exec me c n k w = Ended (Done r) w' sp ->
  n <= m ->
  exec me c m k w = Ended (Done r) w' sp.
Proof.
  induction n as [|n IH]; intros m k w w' r sp He Hle.
  - cbn in He. simplify_eq. by destruct m.
  - destruct m as [|m]; [lia|]. rewrite exec_S in *.
    destruct (thread_step me c k w) as [| |k1 w1 sp1]; [done|done|].
    destruct (exec me c n k1 w1) as [k2 w2 sps|] eqn:Hn; [|done].
    injection He as -> -> <-. by rewrite (IH m k1 w1 _ _ _ Hn) by lia.
Qed.

Lemma seq_call_intro (me : tid) (cl : call) (n : nat) (w w' : world) (r : result) :
  exec me Auto n (entry cl) w = Ended (Done r) w' [] ->
  n <= call_fuel w ->
  seq_call me cl w = Some (r, w').
Proof.
  intros He Hle. unfold seq_call.
  by rewrite (exec_returned _ _ _ _ _ _ _ _ _ He Hle).
Qed.

Lemma seq_calls_app (me : tid) (cs1 cs2 : list call) (w w1 w2 : world)
    (rs1 rs2 : list result) :
  seq_calls me cs1 w = Some (rs1, w1) ->
  seq_calls me cs2 w1 = Some (rs2, w2) ->
  seq_calls me (cs1 ++ cs2) w = Some (rs1 ++ rs2, w2).
Proof.
  revert w rs1. induction cs1 as [|c cs1 IH]; intros w rs1 H1 H2; cbn in *.
  - by simplify_eq.
  - destruct (seq_call me c w) as [[r w0]|]; [|done].
    destruct (seq_calls me cs1 w0) as [[rs w3]|] eqn:Hs; [|done].
    simplify_eq. by rewrite (IH _ _ Hs H2).
Qed.

Lemma seq_Put_pushes (me : tid) (v : Item) (w : world) :
  readyMu (pool w) = None -> waitersMu (pool w) = None ->
  closed (pool w) = false -> Fifo.a (waiters (pool w)) = [] ->
  seq_call me (CallPut v) w
  = Some (RetPut true, with_pool (set_ready (Lifo.Push v (ready (pool w))) (pool w)) w).
Proof.
  intros HR HW Hc Hq. apply (seq_call_intro _ _ 11); [|unfold call_fuel; lia].
  open_world w. by steps.
Qed.

Lemma seq_Put_rejected (me : tid) (v : Item) (w : world) :
  closed (pool w) = true -> seq_call me (CallPut v) w = Some (RetPut false, w).
Proof.
  intros Hc. apply (seq_call_intro _ _ 1); [|unfold call_fuel; lia].
  open_world w. by steps.
Qed.

Lemma seq_TryTake_pops (me : tid) (xs : list Item) (x : Item) (w : world) :
  readyMu (pool w) = None -> Lifo.a (ready (pool w)) = xs ++ [x] ->
  seq_call me CallTryTake w
  = Some (RetTryTake x true, with_pool (set_ready (Lifo.mk xs) (pool w)) w).
Proof.
  intros HR Hr. apply (seq_call_intro _ _ 3); [|unfold call_fuel; lia].
  open_world w. steps. rewrite Pop_snoc. by steps.
Qed.

Lemma seq_TryTake_empty (me : tid) (w : world) :
  readyMu (pool w) = None -> Lifo.a (ready (pool w)) = [] ->
  seq_call me CallTryTake w = Some (RetTryTake zero false, w).
Proof.
  intros HR Hr. apply (seq_call_intro _ _ 3); [|unfold call_fuel; lia].
  open_world w. steps. rewrite Pop_nil. by steps.
Qed.

Lemma seq_Take_pops (me : tid) (ctx : ctx_id) (load : loader) (xs : list Item)
    (x : Item) (w : world) :
  readyMu (pool w) = None -> Lifo.a (ready (pool w)) = xs ++ [x] ->
  seq_call me (CallTake ctx load) w
  = Some (RetTake x None, with_pool (set_ready (Lifo.mk xs) (pool w)) w).
Proof.
  intros HR Hr. apply (seq_call_intro _ _ 3); [|unfold call_fuel; lia].
  open_world w. steps. rewrite Pop_snoc. by steps.
Qed.

Lemma seq_Take_closed (me : tid) (ctx : ctx_id) (load : loader) (w : world) :
  readyMu (pool w) = None -> Lifo.a (ready (pool w)) = [] -> closed (pool w) = true ->
  seq_call me (CallTake ctx load) w = Some (RetTake zero (Some ErrClosed), w).
Proof.
  intros HR Hr Hc. apply (seq_call_intro _ _ 4); [|unfold call_fuel; lia].
  open_world w. steps. rewrite Pop_nil. by steps.
Qed.

Lemma seq_Close_no_waiters (me : tid) (w : world) :
  waitersMu (pool w) = None -> Fifo.a (waiters (pool w)) = [] ->
  seq_call me CallClose w = Some (RetClose, with_pool (set_closed true (pool w)) w).
Proof.
  intros HW Hq. destruct (closed (pool w)) eqn:Hc.
  - apply (seq_call_intro _ _ 1); [|unfold call_fuel; lia]. open_world w. by steps.
  - apply (seq_call_intro _ _ 4); [|unfold call_fuel; lia]. open_world w. by steps.
Qed.

(** The state with the Ready Stack replaced. *)
Lemma seq_Puts (me : tid) (vs : list Item) :
  forall w : world,
  readyMu (pool w) = None -> waitersMu (pool w) = None ->
  closed (pool w) = false -> Fifo.a (waiters (pool w)) = [] ->
  seq_calls me (CallPut <$> vs) w
  = Some (replicate (length vs) (RetPut true),
          with_pool (set_ready (push_all vs (ready (pool w))) (pool w)) w).
Proof.
  induction vs as [|v vs IH]; intros w HR HW Hc Hq; cbn.
  - by destruct w as [[]].
  - fold (seq_call me (CallPut v) w). rewrite seq_Put_pushes by done.
    fold (seq_calls me (CallPut <$> vs)). rewrite IH by done. by destruct w as [[]].
Qed.

Lemma seq_TryTakes (me : tid) (vs : list Item) :
  forall (xs : list Item) (w : world),
  readyMu (pool w) = None -> Lifo.a (ready (pool w)) = xs ++ vs ->
  seq_calls me (replicate (length vs) CallTryTake) w
  = Some ((fun v => RetTryTake v true) <$> reverse vs,
          with_pool (set_ready (Lifo.mk xs) (pool w)) w).
Proof.
  induction vs as [|v vs IH] using rev_ind; intros xs w HR Hr.
  - cbn. rewrite app_nil_r in Hr. destruct w as [[? ? ? [?]]]. cbn in *. by subst.
  - rewrite length_app, Nat.add_comm, reverse_snoc. cbn.
    fold (seq_call me CallTryTake w).
    rewrite (seq_TryTake_pops me (xs ++ vs) v) by (by rewrite <- ?app_assoc).
    fold (seq_calls me (replicate (length vs) CallTryTake)).
    rewrite (IH xs) by done. by destruct w as [[]].
Qed.

Lemma seq_Takes (me : tid) (ctx : ctx_id) (load : loader) (vs : list Item) :
  forall (xs : list Item) (w : world),
  readyMu (pool w) = None -> Lifo.a (ready (pool w)) = xs ++ vs ->
  seq_calls me (replicate (length vs) (CallTake ctx load)) w
  = Some ((fun v => RetTake v None) <$> reverse vs,
          with_pool (set_ready (Lifo.mk xs) (pool w)) w).
Proof.
  induction vs as [|v vs IH] using rev_ind; intros xs w HR Hr.
  - cbn. rewrite app_nil_r in Hr. destruct w as [[? ? ? [?]]]. cbn in *. by subst.
  - rewrite length_app, Nat.add_comm, reverse_snoc. cbn.
    fold (seq_call me (CallTake ctx load) w).
    rewrite (seq_Take_pops me ctx load (xs ++ vs) v) by (by rewrite <- ?app_assoc).
    fold (seq_calls me (replicate (length vs) (CallTake ctx load))).
    rewrite (IH xs) by done. by destruct w as [[]].
Qed.

(** X10.  The Ready Stack through the calls.  On an open list without
    waiters, while no other goroutine holds a mutex, [Put] of the values
    [vs], one call after the other, returns true every time, and as many
    [TryTake] calls then return [vs] in reverse, each with [ok = true], and
    leave the list exactly as it was before the first [Put]. *)
Theorem Puts_then_TryTakes (me : tid) (vs : list Item) (w : world) :
  readyMu (pool w) = None ->
  waitersMu (pool w) = None ->
  closed (pool w) = false ->
  Fifo.a (waiters (pool w)) = [] ->
  seq_calls me ((CallPut <$> vs) ++ replicate (length vs) CallTryTake) w
  = Some (replicate (length vs) (RetPut true)
          ++ ((fun v => RetTryTake v true) <$> reverse vs), w).
Proof.
  intros HR HW Hc Hq.
  eapply seq_calls_app; [by apply seq_Puts|].
  rewrite (seq_TryTakes me vs (Lifo.a (ready (pool w)))).
  - by destruct w as [[? ? ? [?]]].
  - done.
  - cbn. apply push_all_a.
Qed.

(** X11.  Draining a closed list.  On an open list without waiters and
    without ready items, while no other goroutine holds a mutex: after [Put]
    of the values [vs], [Close] returns, a further [Put] is refused, and as
    many [Take] calls as there were values return [vs] in reverse with nil
    errors, whatever their context (cancelled or not) and without calling
    [load]; the next [Take] returns [ErrClosed], [TryTake] returns
    [ok = false], and a second [Close] changes nothing.  At the end only
    [closed] differs from the start. *)
Theorem closed_list_drains (me : tid) (ctx : ctx_id) (load : loader)
    (vs : list Item) (v0 : Item) (w : world) :
  readyMu (pool w) = None ->
  waitersMu (pool w) = None ->
  closed (pool w) = false ->
  Fifo.a (waiters (pool w)) = [] ->
  Lifo.a (ready (pool w)) = [] ->
  seq_calls me
    ((CallPut <$> vs) ++ [CallClose; CallPut v0]
     ++ replicate (length vs) (CallTake ctx load)
     ++ [CallTake ctx load; CallTryTake; CallClose]) w
  = Some (replicate (length vs) (RetPut true) ++ [RetClose; RetPut false]
          ++ ((fun v => RetTake v None) <$> reverse vs)
          ++ [RetTake zero (Some ErrClosed); RetTryTake zero false; RetClose],
          with_pool (set_closed true (pool w)) w).
Proof.
  intros HR HW Hc Hq Hr.
  eapply seq_calls_app; [by apply seq_Puts|].
  set (w1 := with_pool (set_ready (push_all vs (ready (pool w))) (pool w)) w).
  set (w2 := with_pool (set_closed true (pool w1)) w1).
  assert (Lifo.a (ready (pool w2)) = [] ++ vs) as Hr2.
  { cbn. by rewrite push_all_a, Hr. }
  eapply (seq_calls_app _ [CallClose; CallPut v0] _ _ w2).
  { cbn. fold (seq_call me CallClose w1). rewrite seq_Close_no_waiters by done.
    fold (seq_call me (CallPut v0) w2). by rewrite seq_Put_rejected. }
  eapply seq_calls_app; [by apply (seq_Takes me ctx load vs [] w2)|].
  set (w3 := with_pool (set_ready (Lifo.mk []) (pool w2)) w2).
  assert (w3 = with_pool (set_closed true (pool w)) w) as Hw3.
  { subst w3 w2 w1. destruct w as [[? ? ? [?]]]. cbn in *. by subst. }
  rewrite Hw3. cbn.
  fold (seq_call me (CallTake ctx load) (with_pool (set_closed true (pool w)) w)).
  rewrite seq_Take_closed by done.
  fold (seq_call me CallTryTake (with_pool (set_closed true (pool w)) w)).
  rewrite seq_TryTake_empty by done.
  fold (seq_call me CallClose (with_pool (set_closed true (pool w)) w)).
  rewrite seq_Close_no_waiters by done.
  by destruct w as [[]].
Qed.

(** ** The mutexes *)

(** X12.  Mutual exclusion.  In every state of every execution, two
    goroutines that are both between [readyMu.Lock()] and the matching
    [Unlock] are the same goroutine, and likewise for [waitersMu]: the
    Ready Stack and [loads], and the Waiter Queue, are never touched by two
    goroutines at once. *)
Theorem mutual_exclusion (mi mw : Z) (m : machine) (t1 t2 : tid) (k1 k2 : pc) :
  reachable mi mw m ->
  threads m !! t1 = Some k1 ->
  threads m !! t2 = Some k2 ->
  (holdsR k1 = true -> holdsR k2 = true -> t1 = t2)
  /\ (holdsW k1 = true -> holdsW k2 = true -> t1 = t2).
Proof.
  intros Hm H1 H2. destruct (reachable_mutex_inv _ _ _ Hm) as [HR HW]. split.
  - intros Hh1 Hh2. pose proof (HR _ _ H1 Hh1). pose proof (HR _ _ H2 Hh2). congruence.
  - intros Hh1 Hh2. pose proof (HW _ _ H1 Hh1). pose proof (HW _ _ H2 Hh2). congruence.
Qed.

Lemma threads_after_step_other (l : list pc) (t t0 : tid) (k' k0 : pc) (sp : option pc) :
  t0 <> t -> l !! t0 = Some k0 ->
  (<[t := k']> l ++ option_list sp) !! t0 = Some k0.
Proof.
  intros Hne H0. apply lookup_app_l_Some. by rewrite list_lookup_insert_ne.
Qed.

Lemma threads_after_step_self (l : list pc) (t : tid) (k k' : pc) (sp : option pc) :
  l !! t = Some k ->
  (<[t := k']> l ++ option_list sp) !! t = Some k'.
Proof.
  intros Hk. apply lookup_app_l_Some, list_lookup_insert_eq.
  by eapply lookup_lt_Some.
Qed.

Lemma fire_owner_inv (e : event) (m m' : machine) :
  owner_inv m -> fire e m = Some m' -> owner_inv m'.
Proof.
  intros (HR & HW) Hf. unfold owner_inv.
  destruct (fire_inv _ _ _ Hf) as
    [(cl & -> & Hw & Ht)|[(ctx & n & -> & Hw & Ht)|[(t & c & k & pe & -> & _ & _ & Hw & Ht)
    |(t & c & k & k' & sp & -> & Hk & Hs & Ht)]]].
  - rewrite Hw, Ht. split; intros t Hmu;
      [destruct (HR _ Hmu) as (k & Hk & Hh)|destruct (HW _ Hmu) as (k & Hk & Hh)];
      exists k; (split; [by apply lookup_app_l_Some|done]).
  - rewrite Hw, Ht. destruct (cancel_frame ctx n (shared m)) as (-> & _). eauto.
  - rewrite Hw, Ht. eauto.
  - destruct (step_readyMu _ _ _ _ _ _ _ Hs) as (_ & HlockR).
    destruct (step_waiters _ _ _ _ _ _ _ Hs) as (_ & _ & _ & HlockW & _).
    rewrite Ht. split; intros t0 Hmu.
    + destruct (holdsR k) eqn:Hh; destruct (holdsR k') eqn:Hh'.
      * rewrite HlockR in Hmu. destruct (HR _ Hmu) as (k0 & Hk0 & Hh0).
        destruct (decide (t0 = t)) as [->|Hne].
        -- exists k'. eauto using threads_after_step_self.
        -- exists k0. eauto using threads_after_step_other.
      * congruence.
      * destruct HlockR as [_ HlockR]. rewrite HlockR in Hmu. simplify_eq.
        exists k'. eauto using threads_after_step_self.
      * rewrite HlockR in Hmu. destruct (HR _ Hmu) as (k0 & Hk0 & Hh0).
        destruct (decide (t0 = t)) as [->|Hne]; [congruence|].
        exists k0. eauto using threads_after_step_other.
    + destruct (holdsW k) eqn:Hh; destruct (holdsW k') eqn:Hh'.
      * rewrite HlockW in Hmu. destruct (HW _ Hmu) as (k0 & Hk0 & Hh0).
        destruct (decide (t0 = t)) as [->|Hne].
        -- exists k'. eauto using threads_after_step_self.
        -- exists k0. eauto using threads_after_step_other.
      * congruence.
      * destruct HlockW as [_ HlockW]. rewrite HlockW in Hmu. simplify_eq.
        exists k'. eauto using threads_after_step_self.
      * rewrite HlockW in Hmu. destruct (HW _ Hmu) as (k0 & Hk0 & Hh0).
        destruct (decide (t0 = t)) as [->|Hne]; [congruence|].
        exists k0. eauto using threads_after_step_other.
Qed.

Lemma reachable_owner_inv (mi mw : Z) (m : machine) :
  reachable mi mw m -> owner_inv m.
Proof.
  intros [es Hrun]. revert Hrun.
  apply (run_invariant owner_inv); [apply fire_owner_inv|].
  split; intros t H; cbn in H; done.
Qed.

(** A step that locks a mutex is blocked only by that mutex. *)
Lemma blocked_on_mutex (t : tid) (c : choice Item) (k : pc) (w : world) :
  locks_mutex k = true ->
  thread_step t c k w = Blocked ->
  (exists t', readyMu (pool w) = Some t') \/ (exists t', waitersMu (pool w) = Some t').
Proof.
  intros Hk Hs. destruct k; try discriminate Hk; step_cases Hs; eauto.
Qed.

(** Behind a goroutine that is blocked at a [Lock] there is a goroutine
    that holds a mutex and can take its next step. *)
Lemma mutex_holder_moves (mi mw : Z) (m : machine) (t : tid) (c : choice Item) (k : pc) :
  reachable mi mw m ->
  crashed m = None ->
  locks_mutex k = true ->
  thread_step t c k (shared m) = Blocked ->
  exists t' k',
    threads m !! t' = Some k'
    /\ (holdsR k' = true \/ holdsW k' = true)
    /\ is_Some (fire (Step t' Auto) m).
Proof.
  intros Hm Hcr Hl Hb.
  destruct (reachable_owner_inv _ _ _ Hm) as [HR HW].
  assert (forall t' k', threads m !! t' = Some k' ->
            thread_step t' Auto k' (shared m) <> Blocked ->
            is_Some (fire (Step t' Auto) m)) as Hfire.
  { intros t' k' Hk' Hs. unfold fire. rewrite Hcr, Hk'.
    destruct (thread_step t' Auto k' (shared m)); [done|eauto..]. }
  assert (forall t2, waitersMu (pool (shared m)) = Some t2 ->
            exists k2, threads m !! t2 = Some k2 /\ holdsW k2 = true
                       /\ is_Some (fire (Step t2 Auto) m)) as HWgo.
  { intros t2 Hmu. destruct (HW _ Hmu) as (k2 & Hk2 & Hh2).
    exists k2. split_and!; try done. apply (Hfire _ _ Hk2).
    intros Hb2. apply (lock_holders_move) in Hb2 as [Hno _]. congruence. }
  destruct (blocked_on_mutex _ _ _ _ Hl Hb) as [[t1 Hmu]|[t2 Hmu]].
  - destruct (HR _ Hmu) as (k1 & Hk1 & Hh1).
    destruct (thread_step t1 Auto k1 (shared m)) eqn:Hs1.
    + apply (lock_holders_move) in Hs1 as [_ Hwait].
      destruct (Hwait Hh1) as [Hheld _].
      destruct (waitersMu (pool (shared m))) as [t2|] eqn:Hmu2; [|done].
      destruct (HWgo t2 eq_refl) as (k2 & ? & ? & ?). exists t2, k2. eauto.
    + exists t1, k1. split_and!; eauto. apply (Hfire _ _ Hk1). by rewrite Hs1.
    + exists t1, k1. split_and!; eauto. apply (Hfire _ _ Hk1). by rewrite Hs1.
  - destruct (HWgo t2 Hmu) as (k2 & ? & ? & ?). exists t2, k2. eauto.
Qed.

Lemma fire_None_blocked (m : machine) (t : tid) (c : choice Item) (k : pc) :
  crashed m = None ->
  threads m !! t = Some k ->
  fire (Step t c) m = None ->
  thread_step t c k (shared m) = Blocked.
Proof.
  intros Hcr Hk Hf. unfold fire in Hf. rewrite Hcr, Hk in Hf.
  by destruct (thread_step t c k (shared m)).
Qed.

(** X13.  No deadlock on the mutexes.  In every state of every execution
    that has not panicked, whenever a goroutine is blocked at a
    [readyMu.Lock()] or a [waitersMu.Lock()], some goroutine that holds a
    mutex can take its next step: a mutex is never held by a goroutine that
    waits for a channel, for a context or for the blocked goroutine. *)
Theorem no_deadlock_on_mutexes (mi mw : Z) (m : machine) (t : tid) (k : pc) :
  reachable mi mw m ->
  crashed m = None ->
  threads m !! t = Some k ->
  locks_mutex k = true ->
  fire (Step t Auto) m = None ->
  exists t' k',
    threads m !! t' = Some k'
    /\ (holdsR k' = true \/ holdsW k' = true)
    /\ is_Some (fire (Step t' Auto) m).
Proof.
  intros Hm Hcr Hk Hl Hf.
  eapply mutex_holder_moves; eauto using fire_None_blocked.
Qed.

(** X17.  [Put] and [TryTake] do not block.  In every state of every
    execution that has not panicked, a goroutine inside [Put] or [TryTake]
    that has not returned can take its next step, unless it is at a [Lock]
    of a mutex that another goroutine holds, and then a goroutine that
    holds a mutex can take its next step: [Put] and [TryTake] never wait
    for a channel, for a context or for a [load]. *)
Theorem Put_and_TryTake_do_not_block (mi mw : Z) (m : machine) (t : tid) (c : choice Item)
    (k : pc) :
  reachable mi mw m ->
  crashed m = None ->
  threads m !! t = Some k ->
  in_Put k = true \/ in_TryTake k = true ->
  is_Some (fire (Step t c) m)
  \/ (locks_mutex k = true
      /\ exists t' k',
           t' <> t /\ threads m !! t' = Some k'
           /\ (holdsR k' = true \/ holdsW k' = true)
           /\ is_Some (fire (Step t' Auto) m)).
Proof.
  intros Hm Hcr Hk Hin.
  destruct (fire (Step t c) m) as [m'|] eqn:Hf; [left; eauto|right].
  pose proof (fire_None_blocked _ _ _ _ Hcr Hk Hf) as Hb.
  assert (locks_mutex k = true) as Hl.
  { destruct Hin as [Hin|Hin]; destruct k; try discriminate Hin; try done;
      step_cases Hb. }
  split; [done|].
  destruct (mutex_holder_moves _ _ _ _ _ _ Hm Hcr Hl Hb) as (t' & k' & Hk' & Hh & Hgo).
  exists t', k'. split_and!; try done. intros ->.
  assert (k' = k) as -> by congruence.
  destruct Hgo as [m1 Hgo]. unfold fire in Hgo.
  rewrite Hcr, Hk in Hgo.
  destruct k; try discriminate Hl; cbn in Hgo, Hb; unfold lockR, lockW in *;
    repeat case_match; simplify_eq.
Qed.

(** ** What a verdict says about the list *)

Lemma verdict_ok_mono (w w' : world) (k : pc) :
  (closed (pool w) = true -> closed (pool w') = true) ->
  MaxWaiters (pool w') = MaxWaiters (pool w) ->
  (forall ctx e, ctxs w !! ctx = Some e -> ctxs w' !! ctx = Some e) ->
  verdict_ok w k -> verdict_ok w' k.
Proof.
  intros Hc Hmw Hcx.
  assert (forall e, cancelled_with w e -> cancelled_with w' e) as Hcw.
  { intros e [ctx H]. exists ctx. eauto. }
  assert (forall e, justified w e -> justified w' e) as Hj.
  { intros e [[-> H]|[[-> H]|H]].
    - left. eauto.
    - right; left. split; [done|lia].
    - right; right. eauto. }
  destruct k; cbn; eauto; try lia; repeat case_match; eauto; lia.
Qed.

Lemma step_verdict (t : tid) (c : choice Item) (k k' : pc) (w w' : world) (sp : option pc) :
  thread_step t c k w = Next k' w' sp ->
  (forall ch c, chans w !! ch = Some c -> chclosed c = true -> closed (pool w) = true) ->
  verdict_ok w k ->
  (forall ch c, chans w' !! ch = Some c -> chclosed c = true -> closed (pool w') = true)
  /\ ctxs w' = ctxs w
  /\ MaxWaiters (pool w') = MaxWaiters (pool w)
  /\ verdict_ok w' k'
  /\ (forall k0, sp = Some k0 -> verdict_ok w' k0).
Proof.
  intros Hs Hch Hk.
  assert (forall ch r cs, chan_recv ch (chans w) = Some (r, cs) ->
            (forall ch' c', cs !! ch' = Some c' -> chclosed c' = true ->
               closed (pool w) = true)
            /\ (r = None -> closed (pool w) = true)) as Hrecv.
  { intros ch r cs Hr. unfold chan_recv in Hr.
    destruct (chans w !! ch) as [c0|] eqn:Hc0; [|done].
    destruct (buf c0) as [|v rest].
    - destruct (chclosed c0) eqn:Hcl; [|done]. simplify_eq. eauto.
    - simplify_eq. split; [|done]. intros ch' c' Hc' Hcl'.
      apply list_lookup_insert_Some in Hc' as [(-> & <- & _)|[_ Hc']]; eauto. }
  assert (forall ch v cs, chan_send ch v (chans w) = Sent cs ->
            forall ch' c', cs !! ch' = Some c' -> chclosed c' = true ->
               closed (pool w) = true) as Hsend.
  { intros ch v cs Hr. unfold chan_send in Hr.
    destruct (chans w !! ch) as [c0|] eqn:Hc0; [|done].
    destruct (chclosed c0); [done|]. destruct (_ <? _)%nat; [|done]. simplify_eq.
    intros ch' c' Hc' Hcl'.
    apply list_lookup_insert_Some in Hc' as [(-> & <- & _)|[_ Hc']]; eauto. done. }
  assert (forall w0 e, cancelled_with w e -> ctxs w0 = ctxs w -> justified w0 e) as Hcj.
  { intros w0 e [ctx H] Heq. right; right. exists ctx. by rewrite Heq. }
  destruct k; cbn in Hs; unfold lockR, lockW, goto in Hs.
  all: repeat case_match; simplify_eq; cbn in *.
  all: split_and!; try done; try (intros; simplify_eq; fail).
  all: try (match goal with H : ctxs _ !! ?ctx = Some ?e |- cancelled_with _ ?e =>
              by exists ctx end).
  all: try (by apply Hcj).
  all: try (left; by split).
  all: try (right; left; by split).
  all: try (match goal with H : _ && _ = true |- _ =>
              apply andb_prop in H as [?%Z.ltb_lt _]; done end).
  all: try (match goal with H : chan_recv _ _ = Some _ |- _ =>
              destruct (Hrecv _ _ _ H) as [? ?] end; repeat case_match; eauto;
            try (left; split; eauto); fail).
  all: try (match goal with H : chan_send _ _ _ = Sent _ |- _ =>
              pose proof (Hsend _ _ _ H) end; eauto; fail).
  all: try (repeat case_match; eauto; fail).
  - intros ch c0 [?|[_ H']]%lookup_app_Some ?; [eauto|].
    destruct (ch - _); simplify_eq/=.
  - by intros; simplify_eq.
Qed.

Lemma fire_verdict_inv (e : event) (m m' : machine) :
  verdict_inv m -> fire e m = Some m' -> verdict_inv m'.
Proof.
  intros (Hch & Hks) Hf. unfold verdict_inv.
  destruct (fire_inv _ _ _ Hf) as
    [(cl & -> & Hw & Ht)|[(ctx & n & -> & Hw & Ht)|[(t & c & k & pe & -> & _ & _ & Hw & Ht)
    |(t & c & k & k' & sp & -> & Hk & Hs & Ht)]]].
  - rewrite Hw, Ht. split_and!; try done.
    apply Forall_app. split; [done|]. constructor; [|done]. by destruct cl.
  - rewrite Hw, Ht. unfold cancel.
    destruct (ctxs (shared m) !! ctx) as [e0|] eqn:Hc0; [done|].
    split_and!; cbn; try done.
    eapply Forall_impl; [exact Hks|]. intros k.
    apply verdict_ok_mono; cbn; try done.
    intros ctx' e H. rewrite lookup_insert_ne; [done|]. congruence.
  - by rewrite Hw, Ht.
  - pose proof (proj1 (Forall_lookup _ _) Hks _ _ Hk) as Hok.
    destruct (step_verdict _ _ _ _ _ _ _ Hs Hch Hok) as (Hch' & Hcx' & Hmw & Hk' & Hsp).
    rewrite Ht. split_and!; try done.
    apply Forall_app. split.
    + apply Forall_insert; [|done]. eapply Forall_impl; [exact Hks|].
      intros k0. apply verdict_ok_mono; try done.
      * intros Hc. eapply step_closed; eauto.
      * by rewrite Hcx'.
    + destruct sp as [k0|]; cbn; [|done]. constructor; eauto.
Qed.

(** X14.  Verdicts are sound, whatever the other goroutines do.  In every
    state of every execution, a [Put] that returned false did so on a list
    on which [Close] had been called, and behind every error that a [Take]
    returned there is its reason: the error is [ErrClosed] and [Close] had
    been called, or it is [ErrMaxWaiters] and [MaxWaiters] is positive, or
    it is the cause that a context was cancelled with.  The third case
    cannot be left out for the two errors of the package: a caller may
    cancel a context with [ErrClosed] itself, and [Take] hands it on. *)
Theorem verdicts_are_sound (mi mw : Z) (m : machine) (t : tid) (r : result) :
  reachable mi mw m ->
  threads m !! t = Some (Done r) ->
  match r with
  | RetPut accepted => accepted = false -> closed (pool (shared m)) = true
  | RetTake _ (Some e) =>
      (e = ErrClosed /\ closed (pool (shared m)) = true)
      \/ (e = ErrMaxWaiters /\ (0 < mw)%Z)
      \/ (exists ctx, ctxs (shared m) !! ctx = Some e)
  | _ => True
  end.
Proof.
  intros Hm Ht.
  destruct (reachable_limits _ _ _ Hm) as [_ Hmw].
  destruct Hm as [es Hrun].
  assert (verdict_inv m) as (_ & Hks).
  { revert Hrun. apply (run_invariant verdict_inv); [apply fire_verdict_inv|].
    split_and!; cbn; done. }
  pose proof (proj1 (Forall_lookup _ _) Hks _ _ Ht) as Hok.
  destruct r as [v [e|]|v ok|[|]|]; cbn in Hok; try done.
  by rewrite <- Hmw.
Qed.

(** ** Where the items are *)

Lemma concat_fmap_insert {A B} (f : A -> list B) (l : list A) (i : nat) (x : A) :
  l !! i = Some x ->
  exists rest,
    concat (f <$> l) ≡ₚ f x ++ rest
    /\ forall y, concat (f <$> <[i := y]> l) ≡ₚ f y ++ rest.
Proof.
  revert i. induction l as [|x0 l IH]; intros [|i] H; simplify_eq/=.
  - by exists (concat (f <$> l)).
  - destruct (IH _ H) as (rest & Hold & Hnew). exists (f x0 ++ rest). split.
    + rewrite Hold. solve_Permutation.
    + intros y. unfold insert in *. rewrite (Hnew y). solve_Permutation.
Qed.

Lemma Pop_Some (q r : Lifo.t Item) (v : Item) :
  Lifo.Pop q = Some (v, r) -> Lifo.a q = Lifo.a r ++ [v].
Proof.
  destruct q as [l]. destruct l as [|x l _] using rev_ind; [done|].
  rewrite Pop_mk_snoc. intros; by simplify_eq.
Qed.

Lemma recv_bufs (ch : chan) (cs cs' : list Chan) (r : option Item) :
  chan_recv ch cs = Some (r, cs') ->
  concat (buf <$> cs) ≡ₚ option_list r ++ concat (buf <$> cs').
Proof.
  unfold chan_recv. intros H.
  destruct (cs !! ch) as [c0|] eqn:Hc0; [|done].
  destruct (concat_fmap_insert buf _ _ _ Hc0) as (rest & Hold & Hnew).
  destruct (buf c0) as [|v l] eqn:Hb.
  - destruct (chclosed c0); by simplify_eq.
  - simplify_eq. rewrite Hold, Hnew. by cbn.
Qed.

Lemma send_bufs (ch : chan) (v : Item) (cs cs' : list Chan) :
  chan_send ch v cs = Sent cs' ->
  concat (buf <$> cs') ≡ₚ v :: concat (buf <$> cs).
Proof.
  unfold chan_send. intros H.
  destruct (cs !! ch) as [c0|] eqn:Hc0; [|done].
  destruct (concat_fmap_insert buf _ _ _ Hc0) as (rest & Hold & Hnew).
  destruct (chclosed c0); [done|]. destruct (_ <? _)%nat; [|done]. simplify_eq.
  rewrite Hold, Hnew. cbn. solve_Permutation.
Qed.

Lemma close_bufs (ch : chan) (cs cs' : list Chan) :
  chan_close ch cs = Some cs' ->
  concat (buf <$> cs') ≡ₚ concat (buf <$> cs).
Proof.
  unfold chan_close. intros H.
  destruct (cs !! ch) as [c0|] eqn:Hc0; [|done].
  destruct (concat_fmap_insert buf _ _ _ Hc0) as (rest & Hold & Hnew).
  destruct (chclosed c0); [done|]. simplify_eq. by rewrite Hold, Hnew.
Qed.

(** What one step does to the items, on a list that is not closed. *)
Lemma step_stock (t : tid) (c : choice Item) (k k' : pc) (w w' : world) (sp : option pc) :
  thread_step t c k w = Next k' w' sp ->
  closed (pool w) = false ->
  (forall ch c, chans w !! ch = Some c -> chclosed c = false) ->
  Lifo.a (ready (pool w')) ++ concat (buf <$> chans w') ++ carried k'
    ++ concat (carried <$> option_list sp)
  ≡ₚ Lifo.a (ready (pool w)) ++ concat (buf <$> chans w) ++ carried k
    ++ brought (Step 0 c) (mkMachine w [k] None).
Proof.
  intros Hs Hcl Hch.
  assert (forall ch cs, chan_recv ch (chans w) = Some (None, cs) -> False) as Hnone.
  { intros ch cs H. unfold chan_recv in H.
    destruct (chans w !! ch) as [c0|] eqn:Hc0; [|done].
    rewrite (Hch _ _ Hc0) in H. by destruct (buf c0). }
  destruct k; cbn in Hs; unfold lockR, lockW, goto in Hs.
  all: repeat case_match; simplify_eq; cbn in *; rewrite ?app_nil_r.
  all: try done.
  all: try (exfalso; eauto; fail).
  all: try (match goal with H : chan_recv _ _ = Some (?o, _) |- _ =>
              is_var o; destruct o; [|exfalso; eauto] end).
  all: try (match goal with H : Lifo.Pop _ = Some _ |- _ =>
              rewrite (Pop_Some _ _ _ H) end; solve_Permutation).
  all: try (match goal with H : chan_recv _ _ = Some _ |- _ =>
              rewrite (recv_bufs _ _ _ _ H) end; cbn; solve_Permutation).
  all: try (match goal with H : chan_send _ _ _ = Sent _ |- _ =>
              rewrite (send_bufs _ _ _ _ H) end; cbn; solve_Permutation).
  all: try (match goal with H : chan_close _ _ = Some _ |- _ =>
              rewrite (close_bufs _ _ _ H) end; cbn; solve_Permutation).
  all: try (rewrite ?fmap_app, ?concat_app; cbn; rewrite ?app_nil_r; solve_Permutation).
Qed.

Lemma fire_stock (e : event) (m m' : machine) :
  verdict_inv m ->
  closed (pool (shared m)) = false ->
  fire e m = Some m' ->
  stock m' ≡ₚ stock m ++ brought e m.
Proof.
  intros (Hch & _) Hcl Hf. unfold stock.
  destruct (fire_inv _ _ _ Hf) as
    [(cl & -> & Hw & Ht)|[(ctx & n & -> & Hw & Ht)|[(t & c & k & pe & -> & Hk & Hs & Hw & Ht)
    |(t & c & k & k' & sp & -> & Hk & Hs & Ht)]]].
  - rewrite Hw, Ht, fmap_app, concat_app. destruct cl; cbn; rewrite ?app_nil_r;
      solve_Permutation.
  - rewrite Hw, Ht. destruct (cancel_frame ctx n (shared m)) as (-> & _ & ->).
    cbn. by rewrite !app_nil_r.
  - rewrite Hw, Ht. cbn. rewrite Hk.
    destruct k; step_cases Hs; by rewrite ?app_nil_r.
  - destruct (concat_fmap_insert carried _ _ _ Hk) as (rest & Hold & Hnew).
    rewrite Ht, fmap_app, concat_app, Hold, (Hnew k').
    assert (forall ch c, chans (shared m) !! ch = Some c -> chclosed c = false) as Hopen.
    { intros ch c0 Hc0. destruct (chclosed c0) eqn:Hc1; [|done].
      rewrite (Hch _ _ Hc0 Hc1) in Hcl. done. }
    pose proof (step_stock _ _ _ _ _ _ _ Hs Hcl Hopen) as Hstep.
    cbn [brought] in *. rewrite Hk. cbn in Hstep.
    rewrite !app_assoc in Hstep. rewrite !app_assoc.
    rewrite <- (app_assoc _ rest), (Permutation_app_comm rest), !app_assoc.
    rewrite Hstep. solve_Permutation.
Qed.

Lemma run_closed (es : list event) (m m' : machine) :
  run es m = Some m' ->
  closed (pool (shared m)) = true -> closed (pool (shared m')) = true.
Proof.
  intros Hrun Hc. revert Hrun.
  apply (run_invariant (fun m => closed (pool (shared m)) = true)); [|done].
  intros e m0 m1 H0 Hf. eapply fire_closed; eauto.
Qed.

Lemma run_stock (es : list event) (m m' : machine) :
  verdict_inv m ->
  run es m = Some m' ->
  closed (pool (shared m')) = false ->
  stock m' ≡ₚ stock m ++ supply es m.
Proof.
  revert m. induction es as [|e es IH]; intros m Hinv Hrun Hcl; cbn in Hrun |- *.
  - simplify_eq. by rewrite app_nil_r.
  - destruct (fire e m) as [m1|] eqn:Hf; [|done].
    assert (closed (pool (shared m1)) = false) as Hcl1.
    { destruct (closed (pool (shared m1))) eqn:H1; [|done].
      by rewrite (run_closed _ _ _ Hrun H1) in Hcl. }
    assert (closed (pool (shared m)) = false) as Hcl0.
    { destruct (closed (pool (shared m))) eqn:H0; [|done].
      pose proof Hf as Hf'. eapply fire_closed in Hf'; [|done]. congruence. }
    rewrite (IH m1 (fire_verdict_inv _ _ _ Hinv Hf) Hrun Hcl),
      (fire_stock _ _ _ Hinv Hcl0 Hf).
    solve_Permutation.
Qed.

(** X16.  No item is lost and none is made up.  In every state of every
    execution in which [Close] has not taken effect yet, the items on the
    Ready Stack, in the buffers of the cells made so far and in the hands
    of the goroutines (the arguments of the [Put]s under way and the items
    that [Take] and [TryTake] have obtained or returned) are, counted with
    multiplicity, exactly the items that the callers gave to [Put] and that
    the [load] functions returned.  Cancellations and a panic change
    nothing to that.  The cells are all the cells: an item may sit in a
    cell that no waiter owns any more, written there by a [Put] that had
    taken the cell off the Waiter Queue before its waiter gave up; it is
    counted where it is, and nothing says that it will be received. *)
Theorem items_are_conserved (mi mw : Z) (es : list event) (m : machine) :
  run es (boot mi mw) = Some m ->
  closed (pool (shared m)) = false ->
  stock m ≡ₚ supply es (boot mi mw).
Proof.
  intros Hrun Hcl.
  assert (verdict_inv (boot mi mw)) as Hinv by (split_and!; cbn; done).
  by rewrite (run_stock _ _ _ Hinv Hrun Hcl).
Qed.

(** ** A negative [MaxItems] *)

(** X15.  A list with a negative [MaxItems] never constructs an item.  In
    every state of every execution of such a list, [loads] is 0, no [load]
    function has been called and no goroutine is waiting to call one: the
    test [p.MaxItems == 0 || p.loads < p.MaxItems] of [Take] never
    succeeds, and a [Take] that finds no ready item waits for a [Put] of
    the caller. *)
Theorem negative_MaxItems_never_loads (M mw : Z) (m : machine) :
  (M < 0)%Z ->
  reachable M mw m ->
  loads (pool (shared m)) = 0%Z
  /\ calls (shared m) = 0
  /\ forall t load, threads m !! t <> Some (GoLoad load).
Proof.
  intros HM [es Hrun].
  assert (MaxItems (pool (shared m)) = M
          /\ loads (pool (shared m)) = 0%Z
          /\ calls (shared m) + sum_list_with pending (threads m) = 0) as (_ & Hl & Hsum).
  { revert Hrun. apply (run_invariant (fun m =>
      MaxItems (pool (shared m)) = M
      /\ loads (pool (shared m)) = 0%Z
      /\ calls (shared m) + sum_list_with pending (threads m) = 0)); [|done].
    intros e m0 m1 (HMI & Hl & Hsum) Hf.
    destruct (fire_limits _ _ _ Hf) as [HMI' _]. rewrite HMI', HMI.
    split; [done|].
    destruct (fire_inv _ _ _ Hf) as
      [(cl & -> & Hw & Ht)|[(ctx & n & -> & Hw & Ht)|[(t & c & k & pe & -> & _ & _ & Hw & Ht)
      |(t & c & k & k' & sp & -> & Hk & Hs & Ht)]]].
    - rewrite Hw, Ht, sum_list_with_app. cbn.
      destruct (entry_outside cl) as (_ & _ & ->). split; [done|lia].
    - rewrite Hw, Ht. destruct (cancel_frame ctx n (shared m0)) as (-> & -> & _). done.
    - by rewrite Hw, Ht.
    - pose proof (sum_pending_insert _ _ _ k' Hk) as Hins.
      rewrite Ht, sum_list_with_app.
      destruct (step_loads _ _ _ _ _ _ _ Hs) as
        [(-> & -> & Hcalls)|(ctx & load & ch & -> & -> & -> & _ & Hcap & _)].
      + split; [done|]. cbn. lia.
      + lia. }
  split_and!; [done|lia|].
  intros t load Ht.
  assert (sum_list_with pending (threads m) = 0) as H0 by lia.
  clear -Ht H0. revert t Ht H0.
  induction (threads m) as [|k l IH]; intros [|t] Ht H0; simplify_eq/=.
  apply (IH t Ht). lia.
Qed.

End proofs.

(** * The statements at work on [List[int]] *)

(** The model passes [TestList]: every call returns what the test checks,
    and the loader was called twice. *)
Example TestList_passes :
  exists m,
    run 0%Z TestList (boot 2 3) = Some m
    /\ threads m
       = [Done (RetTake 0%Z None); Done (RetPut true); Done (RetPut true);
          Done (RetTake 0%Z None); Done (RetTake 1%Z None); Done (RetPut true);
          Done (RetTake 0%Z None); Done (RetTake 1%Z None); Done (RetTake 0%Z None);
          Done (RetTake 0%Z (Some ErrMaxWaiters));
          Done (RetPut true); Done (RetPut true); Done (RetPut true);
          Done RetClose; Done (RetPut false)]
    /\ calls (shared m) = 2
    /\ loads (pool (shared m)) = 2%Z
    /\ crashed m = None.
Proof. eexists. split; [vm_compute; reflexivity|]. by split_and!. Qed.

(** A closed list with a waiter queued and two ready items: [TryTake]
    returns the top one. *)
Lemma TryTake_pops_ready_only_witness :
  exec 0%Z 0 Auto 3 TryLock
    (mkWorld (mkList 2 3 None (Lifo.mk [5%Z; 6%Z]) 2 None (Fifo.mk [0]) [] true)
             [mkChan [] true] ∅ 2)
  = Ended (Done (RetTryTake 6%Z true))
      (mkWorld (mkList 2 3 None (Lifo.mk [5%Z]) 2 None (Fifo.mk [0]) [] true)
               [mkChan [] true] ∅ 2) [].
Proof.
  exact (proj1 (TryTake_pops_ready_only 0%Z 0 Auto
    (mkWorld (mkList 2 3 None (Lifo.mk [5%Z; 6%Z]) 2 None (Fifo.mk [0]) [] true)
             [mkChan [] true] ∅ 2) eq_refl) [5%Z] 6%Z eq_refl).
Defined.

(** A closed list, a cancelled context, one ready item: [Take] returns it. *)
Lemma Take_ready_item_first_witness :
  exec 0%Z 0 Auto 3 (TakeLockReady 0 UserLoad)
    (mkWorld (mkList 1 1 None (Lifo.mk [42%Z]) 1 None Fifo.empty [] true)
             [] {[0 := Cause 0]} 1)
  = Ended (Done (RetTake 42%Z None))
      (mkWorld (mkList 1 1 None (Lifo.mk []) 1 None Fifo.empty [] true)
               [] {[0 := Cause 0]} 1) [].
Proof.
  exact (proj1 (Take_ready_item_first 0%Z 0 Auto 0 UserLoad
    (mkWorld (mkList 1 1 None (Lifo.mk [42%Z]) 1 None Fifo.empty [] true)
             [] {[0 := Cause 0]} 1) [] 42%Z eq_refl) eq_refl).
Defined.

(** C6.  In the run [cancel_close_race] the waiting [Take] whose context was
    cancelled returns the zero value with a nil error: neither a value that
    was handed to it (none was: the one constructed item went to the first
    [Take], the Ready Stack is empty) nor the cancellation cause.  Its cell
    has left the Waiter Queue and is on the free-list. *)
Theorem cancelled_Take_returns_zero_nil_after_Close :
  exists m,
    run 0%Z cancel_close_race (boot 1 0) = Some m
    /\ threads m !! 0 = Some (Done (RetTake 42%Z None))
    /\ threads m !! 2 = Some (Done (RetTake 0%Z None))
    /\ threads m !! 3 = Some (Done RetClose)
    /\ calls (shared m) = 1
    /\ ready (pool (shared m)) = Lifo.empty
    /\ waiters (pool (shared m)) = Fifo.empty
    /\ chanPool (pool (shared m)) = [1; 0]
    /\ chans (shared m) = [mkChan [] false; mkChan [] true]
    /\ crashed m = None.
Proof. eexists. split; [vm_compute; reflexivity|]. by split_and!. Qed.

(** C8.  The run [stale_cell_race] ends in the panic "waiter channel full":
    the cell that [Put] took from the head of the Waiter Queue held a value
    that nobody had received. *)
Theorem waiter_channel_full_is_reachable :
  exists m,
    run 0%Z stale_cell_race (boot 1 0) = Some m
    /\ crashed m = Some WaiterChannelFull
    /\ threads m !! 0 = Some (Done (RetTake 0%Z (Some (Cause 0))))
    /\ threads m !! 1 = Some (Done (RetPut true))
    /\ threads m !! 2 = Some (TakeSelect 1 0)
    /\ threads m !! 3 = Some (HandoffSend Fast 8%Z 0)
    /\ chans (shared m) = [mkChan [7%Z] false].
Proof. eexists. split; [vm_compute; reflexivity|]. by split_and!. Qed.

(** C5.  In the state that the run [stale_head_cell] reaches, the list is
    open, no mutex is held and the Waiter Queue is not empty: its head is
    cell 0, on which goroutine 2 is about to wait.  [Put(8)], run alone
    there, neither hands 8 to that waiter nor returns true: it takes cell 0
    off the queue, finds it full and panics. *)
Theorem Put_panics_on_a_stale_head_cell :
  exists m,
    run 0%Z stale_head_cell (boot 1 0) = Some m
    /\ crashed m = None
    /\ closed (pool (shared m)) = false
    /\ readyMu (pool (shared m)) = None
    /\ waitersMu (pool (shared m)) = None
    /\ Fifo.a (waiters (pool (shared m))) = [0]
    /\ threads m !! 2 = Some (TakeSelect 1 0)
    /\ chans (shared m) = [mkChan [7%Z] false]
    /\ exec 0%Z 3 Auto 11 (PutChkClosed 8%Z) (shared m) = Panicked WaiterChannelFull.
Proof. eexists. split; [vm_compute; reflexivity|]. by split_and!. Qed.

(** C1.  In the run [dead_cell_race] goroutine 3 is the only waiter: it is
    registered, its cell 1 is on the Waiter Queue, and it is blocked in its
    [select].  The handoff that follows, [Put(8)], succeeds and returns
    true, but the cell it serves is cell 0, on which nobody waits: 8 ends up
    in cell 0, goroutine 3 receives nothing and cannot move, whatever the
    scheduler chooses, and its cell is still queued. *)
Theorem handoff_passes_over_the_waiter :
  exists m,
    run 0%Z dead_cell_race (boot 1 0) = Some m
    /\ crashed m = None
    /\ threads m
       = [Done (RetTake 0%Z (Some (Cause 0))); Done (RetPut true);
          Done (RetTake 7%Z None); TakeSelect 2 1; Done (RetPut true)]
    /\ Fifo.a (waiters (pool (shared m))) = [1]
    /\ chanPool (pool (shared m)) = [0]
    /\ chans (shared m) = [mkChan [8%Z] false; mkChan [] false]
    /\ forall c, fire 0%Z (Step 3 c) m = None.
Proof.
  eexists. split; [vm_compute; reflexivity|].
  split_and!; try done. by intros [].
Qed.

(** C4.  In the run [double_queued_close] the first [Close] finds cell 0
    queued twice, closes it, closes it again and panics: it does not
    return, and it holds [waitersMu].  In the run [late_waiter] the first
    [Close] returns, and then a [Take] that had read [closed] before puts
    its cell on the Waiter Queue and blocks: the list is closed, the Waiter
    Queue is not empty, the cell is open, and the [Take] cannot move,
    whatever the scheduler chooses. *)
Theorem Close_panics_or_leaves_a_waiter :
  (exists m,
     run 0%Z double_queued_close (boot 1 0) = Some m
     /\ crashed m = Some CloseOfClosedChannel
     /\ threads m !! 3 = Some (TakeSelect 2 0)
     /\ threads m !! 4 = Some (CloseChan 0)
     /\ waitersMu (pool (shared m)) = Some 4)
  /\ (exists m,
     run 0%Z late_waiter (boot 0 0) = Some m
     /\ crashed m = None
     /\ closed (pool (shared m)) = true
     /\ threads m = [TakeSelect 0 0; Done RetClose; Done (RetPut false)]
     /\ Fifo.a (waiters (pool (shared m))) = [0]
     /\ chans (shared m) = [mkChan [] false]
     /\ forall c, fire 0%Z (Step 0 c) m = None).
Proof.
  split.
  - eexists. split; [vm_compute; reflexivity|]. by split_and!.
  - eexists. split; [vm_compute; reflexivity|].
    split_and!; try done. by intros [].
Qed.

Lemma waiters_served_fifo_witness :
  exists regs w',
    serve 0%Z 9 fifo_ops fifo_state = Some (regs, w')
    /\ length regs = registrations fifo_ops
    /\ Fifo.a (waiters (pool w'))
       = drop (length (handed fifo_ops)) (Fifo.a (waiters (pool fifo_state)) ++ regs)
    /\ (forall n ch v,
          (Fifo.a (waiters (pool fifo_state)) ++ regs) !! n = Some ch ->
          handed fifo_ops !! n = Some v ->
          chans w' !! ch = Some (mkChan [v] false)).
Proof.
  apply (waiters_served_fifo 0%Z 9 fifo_ops fifo_state).
  - split_and!; try reflexivity.
    + apply (bool_decide_unpack _). vm_compute. reflexivity.
    + repeat constructor.
  - reflexivity.
  - repeat constructor.
  - left. simpl. lia.
Defined.

Lemma loads_bounded_by_MaxItems_witness :
  (loads (pool (shared after_two_loads)) <= 2)%Z
  /\ (Z.of_nat (calls (shared after_two_loads)) <= 2)%Z.
Proof.
  assert (0 < 2 <= int_max)%Z as HM by (unfold int_max; lia).
  assert (reachable 0%Z 2 3 after_two_loads) as Hm
    by (exists two_loads; vm_compute; reflexivity).
  destruct (loads_bounded_by_MaxItems 0%Z 2 3 after_two_loads HM Hm) as (H1 & H2 & _).
  exact (conj H1 H2).
Defined.

Lemma Take_MaxWaiters_enforced_witness :
  exec 0%Z 5 Auto 8 (TakeLockReady 0 UserLoad) full_state
  = Ended (Done (RetTake 0%Z (Some ErrMaxWaiters))) full_state [].
Proof.
  apply (Take_MaxWaiters_enforced 0%Z 5 Auto 0 UserLoad full_state);
    try reflexivity; simpl; lia.
Defined.

Lemma Put_hands_off_or_stacks_witness :
  exec 0%Z 5 Auto 11 (PutChkClosed 9%Z) waiting_state
  = Ended (Done (RetPut true))
      (mkWorld (mkList 1 0 None Lifo.empty 1 None (Fifo.mk [1]) [] false)
               [mkChan [9%Z] false; mkChan [] false] ∅ 1) [].
Proof.
  destruct (Put_hands_off_or_stacks 0%Z 5 Auto 9%Z waiting_state eq_refl eq_refl)
    as (_ & H & _).
  exact (H eq_refl 0 [1] eq_refl eq_refl).
Defined.

Lemma Close_once_and_for_good_witness :
  exists w',
    exec 0%Z 5 Auto 8 CloseSwap waiting_state = Ended (Done RetClose) w' []
    /\ pool w' = mkList 1 0 None Lifo.empty 1 None (Fifo.mk []) [] true
    /\ chans w' !! 0 = Some (mkChan [] true)
    /\ chans w' !! 1 = Some (mkChan [] true)
    /\ exec 0%Z 6 Auto 2 (TakeSelect 0 1) w'
       = Ended (Done (RetTake 0%Z (Some ErrClosed))) (pool_put 1 w') [].
Proof.
  destruct (Close_once_and_for_good 0%Z 5 Auto waiting_state [0; 1]
              eq_refl eq_refl eq_refl) as ((w' & Hex & Hp & Hin & _ & _ & _ & Hwait) & _).
  - apply (bool_decide_unpack _). vm_compute. reflexivity.
  - intros ch Hch.
    repeat (apply elem_of_cons in Hch as [->|Hch]; [reflexivity|]).
    by apply elem_of_nil in Hch.
  - exists w'. split_and!.
    + exact Hex.
    + exact Hp.
    + apply Hin. by left.
    + apply Hin. right. by left.
    + apply (Hwait 6 Auto 0 1); [right; by left|discriminate].
Defined.

Lemma Put_then_TryTake_witness :
  exists w1,
    exec 0%Z 5 Auto 11 (PutChkClosed 4%Z) stacked_state = Ended (Done (RetPut true)) w1 []
    /\ ready (pool w1) = Lifo.Push 4%Z (ready (pool stacked_state))
    /\ exec 0%Z 6 Auto 3 TryLock w1 = Ended (Done (RetTryTake 4%Z true)) stacked_state [].
Proof.
  exact (Put_then_TryTake 0%Z 5 6 Auto Auto 4%Z stacked_state
           eq_refl eq_refl eq_refl eq_refl).
Defined.

(** ** More of the code *)

Lemma Take_cancelled_before_waiting_witness :
  exec 0%Z 0 Auto 5 (TakeLockReady 0 NilLoad) cancelled_state
  = Ended (Done (RetTake 0%Z (Some (Cause 7)))) cancelled_state [].
Proof.
  exact (Take_cancelled_before_waiting 0%Z 0 Auto 0 NilLoad (Cause 7) cancelled_state
           eq_refl eq_refl eq_refl eq_refl).
Defined.

(** A registration that reuses cell 1 of [fifo_state]; one that makes
    cell 2. *)
Lemma Take_registers_witness :
  exec 0%Z 3 (Pooled 0) 11 (TakeLockReady 0 NilLoad) fifo_state
  = Ended (TakeSelect 0 1)
      (mkWorld (mkList 0 0 None Lifo.empty 1 None (Fifo.mk [0; 1]) [] false)
               [mkChan [] false; mkChan [] false] ∅ 0)
      [GoLoad NilLoad]
  /\ exec 0%Z 3 Auto 11 (TakeLockReady 0 NilLoad) fifo_state
     = Ended (TakeSelect 0 2)
         (mkWorld (mkList 0 0 None Lifo.empty 1 None (Fifo.mk [0; 2]) [1] false)
                  [mkChan [] false; mkChan [] false; mkChan [] false] ∅ 0)
         [GoLoad NilLoad].
Proof.
  destruct (Take_registers 0%Z 3 0 NilLoad fifo_state
              eq_refl eq_refl eq_refl eq_refl eq_refl) as [Hpool Hnew].
  - left. simpl. lia.
  - split.
    + exact (Hpool 0 1 eq_refl).
    + exact (Hnew Auto eq_refl).
Defined.

Lemma delivered_value_is_returned_witness :
  exec 0%Z 0 Auto 2 (TakeSelect 0 0) delivered_state
  = Ended (Done (RetTake 5%Z None))
      (mkWorld (mkList 1 0 None Lifo.empty 1 None Fifo.empty [0] false)
               [mkChan [] false] {[0 := Cause 7]} 1) []
  /\ exec 0%Z 0 CtxDone 6 (TakeSelect 0 0) delivered_state
     = Ended (Done (RetTake 5%Z None))
         (mkWorld (mkList 1 0 None Lifo.empty 1 None Fifo.empty [0] false)
                  [mkChan [] false] {[0 := Cause 7]} 1) [].
Proof.
  destruct (delivered_value_is_returned 0%Z 0 0 0 5%Z [] false delivered_state eq_refl)
    as [Hrecv Hcancel].
  split.
  - exact Hrecv.
  - exact (Hcancel (Cause 7) eq_refl eq_refl).
Defined.

(** On a new list without limits: [Take] queues cell 0 and starts the
    goroutine; [load] returns 42 and [Put] writes it into cell 0; [Take]
    returns 42. *)
Lemma Take_constructs_on_demand_witness :
  exists w1 w2 w3,
    exec 0%Z 0 Auto 11 (TakeLockReady 0 UserLoad) (new_world 0 0)
    = Ended (TakeSelect 0 0) w1 [GoLoad UserLoad]
    /\ exec 0%Z 1 (Loaded 42%Z) 6 (GoLoad UserLoad) w1 = Ended (Done (RetPut true)) w2 []
    /\ exec 0%Z 0 Auto 2 (TakeSelect 0 0) w2 = Ended (Done (RetTake 42%Z None)) w3 [].
Proof.
  do 3 eexists.
  apply (Take_constructs_on_demand 0%Z 0 1 0 UserLoad 42%Z (new_world 0 0));
    try reflexivity.
  left. reflexivity.
Defined.

(** A third waiter on [waiting_state] whose context is cancelled: the
    Waiter Queue is [0; 1] again and cell 2 is on the free-list. *)
Lemma Take_cancelled_while_waiting_witness :
  exists w1,
    exec 0%Z 4 Auto 11 (TakeLockReady 0 UserLoad) waiting_state
    = Ended (TakeSelect 0 2) w1 []
    /\ exec 0%Z 4 CtxDone 6 (TakeSelect 0 2) (cancel 0 (Cause 7) w1)
       = Ended (Done (RetTake 0%Z (Some (Cause 7))))
           (mkWorld (mkList 1 0 None Lifo.empty 1 None (Fifo.mk [0; 1]) [2] false)
                    [mkChan [] false; mkChan [] false; mkChan [] false]
                    {[0 := Cause 7]} 1) [].
Proof.
  eexists.
  apply (Take_cancelled_while_waiting 0%Z 4 0 UserLoad (Cause 7) waiting_state);
    try reflexivity.
  - left. simpl. lia.
  - repeat constructor.
Defined.

Lemma Puts_then_TryTakes_witness :
  seq_calls 0%Z 0
    [CallPut 1%Z; CallPut 2%Z; CallPut 3%Z; CallTryTake; CallTryTake; CallTryTake]
    (new_world 0 0)
  = Some ([RetPut true; RetPut true; RetPut true;
           RetTryTake 3%Z true; RetTryTake 2%Z true; RetTryTake 1%Z true],
          new_world 0 0).
Proof.
  exact (Puts_then_TryTakes 0%Z 0 [1%Z; 2%Z; 3%Z] (new_world 0 0)
           eq_refl eq_refl eq_refl eq_refl).
Defined.

Lemma closed_list_drains_witness :
  seq_calls 0%Z 0
    [CallPut 1%Z; CallPut 2%Z; CallClose; CallPut 9%Z;
     CallTake 0 UserLoad; CallTake 0 UserLoad; CallTake 0 UserLoad;
     CallTryTake; CallClose]
    (new_world 0 0)
  = Some ([RetPut true; RetPut true; RetClose; RetPut false;
           RetTake 2%Z None; RetTake 1%Z None; RetTake 0%Z (Some ErrClosed);
           RetTryTake 0%Z false; RetClose],
          mkWorld (mkList 0 0 None Lifo.empty 0 None Fifo.empty [] true) [] ∅ 0).
Proof.
  exact (closed_list_drains 0%Z 0 0 UserLoad [1%Z; 2%Z] 9%Z (new_world 0 0)
           eq_refl eq_refl eq_refl eq_refl eq_refl).
Defined.

Lemma reachable_during_lock_contention : reachable 0%Z 0 0 during_lock_contention.
Proof. exists lock_contention. vm_compute. reflexivity. Defined.

(** Goroutine 0 is inside the sections of both mutexes; goroutine 1, at the
    [Lock] of [TryTake], is not. *)
Lemma mutual_exclusion_witness :
  (holdsR (@TakeChkMax Z 0 NilLoad) = true -> holdsR (@TryLock Z) = true -> 0 = 1)
  /\ (holdsW (@TakeChkMax Z 0 NilLoad) = true -> holdsW (@TryLock Z) = true -> 0 = 1).
Proof.
  exact (mutual_exclusion 0%Z 0 0 during_lock_contention 0 1
           (TakeChkMax 0 NilLoad) TryLock reachable_during_lock_contention
           eq_refl eq_refl).
Defined.

(** Goroutine 1 waits for [readyMu]; a holder can move. *)
Lemma no_deadlock_on_mutexes_witness :
  exists t' k',
    threads during_lock_contention !! t' = Some k'
    /\ (holdsR k' = true \/ holdsW k' = true)
    /\ is_Some (fire 0%Z (Step t' Auto) during_lock_contention).
Proof.
  exact (no_deadlock_on_mutexes 0%Z 0 0 during_lock_contention 1 TryLock
           reachable_during_lock_contention eq_refl eq_refl eq_refl eq_refl).
Defined.

Lemma Put_and_TryTake_do_not_block_witness :
  is_Some (fire 0%Z (Step 1 Auto) during_lock_contention)
  \/ (locks_mutex (@TryLock Z) = true
      /\ exists t' k',
           t' <> 1 /\ threads during_lock_contention !! t' = Some k'
           /\ (holdsR k' = true \/ holdsW k' = true)
           /\ is_Some (fire 0%Z (Step t' Auto) during_lock_contention)).
Proof.
  apply (Put_and_TryTake_do_not_block 0%Z 0 0 during_lock_contention 1 Auto TryLock
           reachable_during_lock_contention eq_refl eq_refl).
  right. reflexivity.
Defined.

(** At the end of [TestList], [Put(42)] has returned false: the list is
    closed. *)
Lemma verdicts_are_sound_witness : closed (pool (shared after_TestList)) = true.
Proof.
  assert (reachable 0%Z 2 3 after_TestList) as Hm
    by (exists TestList; vm_compute; reflexivity).
  exact (verdicts_are_sound 0%Z 2 3 after_TestList 14 (RetPut false) Hm eq_refl eq_refl).
Defined.

Lemma negative_MaxItems_never_loads_witness :
  loads (pool (shared after_served_by_Put)) = 0%Z
  /\ calls (shared after_served_by_Put) = 0
  /\ forall t load, threads after_served_by_Put !! t <> Some (GoLoad load).
Proof.
  apply (negative_MaxItems_never_loads 0%Z (-1) 0 after_served_by_Put).
  - lia.
  - exists served_by_Put. vm_compute. reflexivity.
Defined.

(** After [two_loads] the items 0 and 1 that [load] returned and the 0 given
    to [Put] are the three items that the three [Take]s returned. *)
Lemma items_are_conserved_witness :
  stock after_two_loads ≡ₚ supply 0%Z two_loads (boot 2 3).
Proof.
  apply (items_are_conserved 0%Z 2 3 two_loads after_two_loads).
  - vm_compute. reflexivity.
  - reflexivity.
Defined.

(** The three outcomes of a cancelled wait, on cell 0 of [waiting_state]:
    empty and open. *)
Lemma cancel_path_witness :
  exec 0%Z 4 Auto 5 (CancelLock 0 (Cause 7)) waiting_state
  = Ended (Done (RetTake 0%Z (Some (Cause 7))))
      (mkWorld (mkList 1 0 None Lifo.empty 1 None (Fifo.mk [1]) [0] false)
               [mkChan [] false; mkChan [] false] ∅ 1) [].
Proof.
  destruct (cancel_path 0%Z 4 Auto 0 (Cause 7) waiting_state eq_refl)
    as (_ & H & _).
  exact (H eq_refl).
Defined.

Lemma steady_operation_is_safe_witness : steady after_two_loads.
Proof.
  apply (steady_operation_is_safe 0%Z 2 3 two_loads after_two_loads).
  - apply (bool_decide_unpack _). vm_compute. reflexivity.
  - vm_compute. reflexivity.
Defined.
